(** * Wordle greedy solver: constraint model and greedy search

    A shallow embedding of [main.cpp]: the clue store ([Clues]), the game
    session built around a hidden answer ([WorldleGame]), the greedy trial
    ([runGreedyTrial]) and the word codec ([fromString]), followed by the
    properties established about them. *)

From Stdlib Require Import ZArith Bool List Lia Ascii String.
From stdpp Require Import base tactics option list.

Local Open Scope Z_scope.

(** ** Data model *)

(** [constexpr size_t kNumLetters = 5]. *)
Definition kNumLetters : nat := 5.

(** [using Letter = int32_t], [using LetterField = uint32_t],
    [using Word = std::array<Letter, kNumLetters>],
    [using WordList = std::vector<Word>].  Arrays and vectors are lists read
    with [!!!] and written with [<[i:=x]>]. *)
Abbreviation Letter := Z.
Abbreviation LetterField := Z.
Abbreviation Word := (list Z).
Abbreviation WordList := (list (list Z)).

(** [constexpr Letter kUnknownLetter = -1]. *)
Definition kUnknownLetter : Letter := -1.

(** Width of [LetterField]. *)
Definition kFieldBits : Z := 32.

(** The expression [1 << letter] stored into a [LetterField]: a shift of the
    [int] constant 1, converted to [uint32_t].  C++ defines it for
    [0 <= letter < 32] only. *)
Definition letter_bit (letter : Letter) : LetterField :=
  Z.shiftl 1 letter mod 2 ^ kFieldBits.

(** A letter whose bit fits a [LetterField]; the codes of 'a'..'z' are
    0..25. *)
Definition letter_ok (l : Letter) : bool := (0 <=? l) && (l <? kFieldBits).

(** A [Word] as the program uses it: [kNumLetters] letters with a bit each. *)
Definition word_ok (w : Word) : bool :=
  (length w =? kNumLetters)%nat && forallb letter_ok w.

(** ** class Clues *)

Record Clues : Type := mkClues {
  match_ : Word;               (* Word match_ *)
  wrong_ : list LetterField;   (* std::array<LetterField, kNumLetters> wrong_ *)
  in_answer_ : LetterField     (* LetterField in_answer_ = 0 *)
}.

(** [Clues::Clues()]: [match_.fill(kUnknownLetter); wrong_.fill(0)]. *)
Definition Clues_new : Clues :=
  {| match_ := replicate kNumLetters kUnknownLetter;
     wrong_ := replicate kNumLetters 0;
     in_answer_ := 0 |}.

(** The [for] loop of [Clues::matches] over the positions [idx], carrying the
    local [in_word]; [None] is the early [return false]. *)
Fixpoint matches_loop (this : Clues) (word : Word) (idx : list nat)
    (in_word : LetterField) : option LetterField :=
  match idx with
  | [] => Some in_word
  | i :: rest =>
      let letter := word !!! i in
      let correct_letter := match_ this !!! i in
      if negb (correct_letter =? kUnknownLetter) && negb (correct_letter =? letter)
      then None
      else
        let bit := letter_bit letter in
        if negb (Z.land bit (wrong_ this !!! i) =? 0) then None
        else matches_loop this word rest (Z.lor in_word bit)
  end.

(** [bool Clues::matches(const Word &word) const].  A member function takes
    the receiver and gives back its result together with the receiver as the
    call leaves it. *)
Definition matches (this : Clues) (word : Word) : bool * Clues :=
  match matches_loop this word (seq 0 kNumLetters) 0 with
  | None => (false, this)
  | Some in_word =>
      if negb (Z.land (in_answer_ this) in_word =? in_answer_ this)
      then (false, this)
      else (true, this)
  end.

(** ** class WorldleGame : public Clues *)

Record WorldleGame : Type := mkGame {
  clues : Clues;               (* the Clues base object *)
  answer_ : Word;              (* Word answer_ *)
  answer_bits_ : LetterField   (* LetterField answer_bits_ = 0 *)
}.

(** [WorldleGame::WorldleGame(const Word &answer)]:
    [for (int l : answer_) answer_bits_ |= 1 << l]. *)
Definition WorldleGame_new (answer : Word) : WorldleGame :=
  {| clues := Clues_new;
     answer_ := answer;
     answer_bits_ := foldl (fun bits l => Z.lor bits (letter_bit l)) 0 answer |}.

(** One iteration of the loop of [WorldleGame::addGuess], at position [i]. *)
Definition addGuess_step (guess : Word) (this : WorldleGame) (i : nat)
    : WorldleGame :=
  let answer_letter := answer_ this !!! i in
  let guess_letter := guess !!! i in
  let guess_letter_bit := letter_bit guess_letter in
  let guess_in_answer := Z.land guess_letter_bit (answer_bits_ this) in
  let c := clues this in
  let in_answer' := Z.lor (in_answer_ c) guess_in_answer in
  let c' :=
    if guess_letter =? answer_letter then
      (* Letter matches. *)
      {| match_ := <[i := answer_letter]> (match_ c);
         wrong_ := wrong_ c;
         in_answer_ := in_answer' |}
    else if negb (guess_in_answer =? 0) then
      (* Letter is wrong at this position. *)
      {| match_ := match_ c;
         wrong_ := <[i := Z.lor (wrong_ c !!! i) guess_letter_bit]> (wrong_ c);
         in_answer_ := in_answer' |}
    else
      (* Letter appears nowhere in answer. *)
      {| match_ := match_ c;
         wrong_ := (fun letter_field => Z.lor letter_field guess_letter_bit)
                     <$> wrong_ c;
         in_answer_ := in_answer' |} in
  {| clues := c'; answer_ := answer_ this; answer_bits_ := answer_bits_ this |}.

(** [void WorldleGame::addGuess(const Word &guess)]. *)
Definition addGuess (this : WorldleGame) (guess : Word) : WorldleGame :=
  foldl (addGuess_step guess) this (seq 0 kNumLetters).

(** [void WorldleGame::addGuesses(std::vector<Word> &guesses)]. *)
Definition addGuesses (this : WorldleGame) (guesses : WordList) : WorldleGame :=
  foldl addGuess this guesses.

(** [WorldleGame WorldleGame::getCopyWithGuess(const Word &guess) const]:
    [ret = *this; ret.addGuess(guess); return ret] (the source spells the
    type of [ret] [WordleGame]; it is the class itself).  The pair is the
    returned object and the receiver after the call. *)
Definition getCopyWithGuess (this : WorldleGame) (guess : Word)
    : WorldleGame * WorldleGame :=
  let ret := this in
  let ret := addGuess ret guess in
  (ret, this).

(** The call [game.matches(w)] on a [WorldleGame], through its base. *)
Definition game_matches (game : WorldleGame) (w : Word) : bool :=
  fst (matches (clues game) w).

(** ** The greedy trial *)

(** Outcomes of code that can stop early: a failed [assert], an access
    outside a vector's bounds, or (for the [while] loop) the model's step
    budget running out. *)
Inductive result (A : Type) : Type :=
  | Done (a : A)
  | AssertionFailed
  | OutOfBounds
  | OutOfFuel.
Arguments Done {A} a.
Arguments AssertionFailed {A}.
Arguments OutOfBounds {A}.
Arguments OutOfFuel {A}.

Definition bind {A B : Type} (r : result A) (k : A -> result B) : result B :=
  match r with
  | Done a => k a
  | AssertionFailed => AssertionFailed
  | OutOfBounds => OutOfBounds
  | OutOfFuel => OutOfFuel
  end.

Notation "'let!' x ':=' r 'in' k" := (bind r (fun x => k))
  (at level 10, x name, r at level 100, k at level 200).

(** [std::count_if(first, last, pred)]. *)
Definition count_if {A : Type} (pred : A -> bool) (l : list A) : Z :=
  Z.of_nat (length (List.filter pred l)).

(** [scores[i] += v] on a [std::vector<int64_t>]. *)
Definition add_score (scores : list Z) (i : nat) (v : Z) : result (list Z) :=
  if decide (i < length scores)%nat
  then Done (<[i := scores !!! i + v]> scores)
  else OutOfBounds.

(** The inner loop of a round, lines 192-197: for every entry [i],
    [scores[i] += count_if(valid_answers, game_with_guess.matches)]. *)
Definition score_entries (entries valid_answers : WordList)
    (game_for_answer : WorldleGame) (scores : list Z) : result (list Z) :=
  foldl (fun acc i =>
           let! scores := acc in
           let game_with_guess :=
             fst (getCopyWithGuess game_for_answer (entries !!! i)) in
           add_score scores i (count_if (game_matches game_with_guess) valid_answers))
        (Done scores) (seq 0 (length entries)).

(** The outer loop of a round, lines 189-198: one pass of [score_entries]
    for every feasible answer taken as the hidden one. *)
Definition score_round (entries valid_answers best_guesses : WordList)
    (scores : list Z) : result (list Z) :=
  foldl (fun acc valid_answer =>
           let! scores := acc in
           let game_for_answer :=
             addGuesses (WorldleGame_new valid_answer) best_guesses in
           score_entries entries valid_answers game_for_answer scores)
        (Done scores) valid_answers.

(** The scan of [std::min_element] after its first element: [smallest] is
    replaced only by a strictly smaller value. *)
Fixpoint min_element_from (smallest : nat) (least : Z) (i : nat) (l : list Z)
    : nat :=
  match l with
  | [] => smallest
  | x :: rest =>
      if x <? least then min_element_from i x (S i) rest
      else min_element_from smallest least (S i) rest
  end.

(** [std::distance(scores.cbegin(), std::min_element(scores.cbegin(),
    scores.cend()))]; on an empty range [min_element] returns [last], at
    distance 0. *)
Definition min_element (scores : list Z) : nat :=
  match scores with
  | [] => 0%nat
  | x :: rest => min_element_from 0 x 1 rest
  end.

(** The variables of [runGreedyTrial] that the [while] loop updates. *)
Record trial : Type := mkTrial {
  trial_game : WorldleGame;
  valid_answers : WordList;
  best_guesses : WordList;
  scores : list Z;
  trial_count : Z
}.

(** The body of the [while] loop, lines 189-215 (the debug output left
    out). *)
Definition greedy_round (entries : WordList) (t : trial) : result trial :=
  let! scores' :=
    score_round entries (valid_answers t) (best_guesses t) (scores t) in
  let min_idx := min_element scores' in
  if decide (min_idx < length entries)%nat then
    let best_guess := entries !!! min_idx in
    let game' := addGuess (trial_game t) best_guess in
    Done {| trial_game := game';
            valid_answers := List.filter (game_matches game') (valid_answers t);
            best_guesses := best_guesses t ++ [best_guess];
            scores := replicate (length scores') 0;
            trial_count := trial_count t + 1 |}
  else OutOfBounds.

(** [while (valid_answers.size() > 1) { ... }], at most [fuel] rounds. *)
Fixpoint greedy_loop (fuel : nat) (entries : WordList) (t : trial)
    : result trial :=
  if (1 <? length (valid_answers t))%nat then
    match fuel with
    | O => OutOfFuel
    | S fuel' =>
        let! t' := greedy_round entries t in greedy_loop fuel' entries t'
    end
  else Done t.

(** The end of [runGreedyTrial], lines 230-232:
    [assert(valid_answers.size() == 1); assert(valid_answers.front() == answer);
    return trial_count]. *)
Definition conclude (answer : Word) (t : trial) : result Z :=
  match valid_answers t with
  | [front] =>
      if decide (front = answer) then Done (trial_count t) else AssertionFailed
  | _ => AssertionFailed
  end.

(** [constexpr Word first_guess = {17, 14, 0, 19, 4}; // 'roate']. *)
Definition first_guess : Word := [17; 14; 0; 19; 4].

(** The state in which [runGreedyTrial] reaches its [while] loop,
    lines 172-187. *)
Definition seed_trial (entries : WordList) (answer : Word) (num_answers : nat)
    : trial :=
  let game := addGuess (WorldleGame_new answer) first_guess in
  {| trial_game := game;
     valid_answers := List.filter (game_matches game) (take num_answers entries);
     best_guesses := [first_guess];
     scores := [];
     trial_count := 1 |}.

(** [int runGreedyTrial(const WordList &entries, size_t answer_idx,
    size_t num_answers, bool debug)]. *)
Definition runGreedyTrial (fuel : nat) (entries : WordList)
    (answer_idx num_answers : nat) : result Z :=
  if decide (answer_idx < length entries)%nat then
    let answer := entries !!! answer_idx in
    if decide (num_answers <= length entries)%nat then
      let! t := greedy_loop fuel entries (seed_trial entries answer num_answers) in
      conclude answer t
    else OutOfBounds
  else AssertionFailed.

(** ** The word codec *)

(** The value of a [char] as an [int]; whether plain [char] is signed is the
    implementation's choice. *)
Definition char_value (char_signed : bool) (c : ascii) : Z :=
  let n := Z.of_N (N_of_ascii c) in
  if char_signed && (128 <=? n) then n - 256 else n.

(** [Word fromString(const std::string &str)]:
    [assert(str.size() == kNumLetters)], then [word[i] = str[i] - 'a']. *)
Definition fromString (char_signed : bool) (str : string) : result Word :=
  if decide (String.length str = kNumLetters) then
    Done ((fun i => char_value char_signed
                          (default Ascii.zero (String.get i str))
                    - char_value char_signed "a"%char)
          <$> seq 0 kNumLetters)
  else AssertionFailed.

(** ** Notions used in the statements *)

(** What makes the loop of [matches] return early at position [i]. *)
Definition position_rejects (this : Clues) (word : Word) (i : nat) : bool :=
  (negb (match_ this !!! i =? kUnknownLetter)
   && negb (match_ this !!! i =? word !!! i))
  || negb (Z.land (letter_bit (word !!! i)) (wrong_ this !!! i) =? 0).

(** The value of [in_word] once the loop has run over [idx]. *)
Definition letters_seen (word : Word) (idx : list nat) (in_word : LetterField)
    : LetterField :=
  foldl (fun acc i => Z.lor acc (letter_bit (word !!! i))) in_word idx.

(** The bits that iteration [i] of [addGuess] ors into [wrong_[j]]. *)
Definition forbidden_by (answer : Word) (answer_bits : LetterField)
    (guess : Word) (j i : nat) : LetterField :=
  let bit := letter_bit (guess !!! i) in
  if guess !!! i =? answer !!! i then 0
  else if negb (Z.land bit answer_bits =? 0)
       then (if decide (i = j) then bit else 0)
       else bit.

(** What holds of every game built by [WorldleGame_new answer] and changed
    by [addGuess] only. *)
Record session_inv (answer : Word) (game : WorldleGame) : Prop := {
  inv_answer : answer_ game = answer;
  inv_bits : forall x, Z.testbit (answer_bits_ game) x = true <-> x ∈ answer;
  inv_match_length : length (match_ (clues game)) = kNumLetters;
  inv_wrong_length : length (wrong_ (clues game)) = kNumLetters;
  inv_match : forall j, (j < kNumLetters)%nat ->
    match_ (clues game) !!! j = kUnknownLetter
    \/ match_ (clues game) !!! j = answer !!! j;
  inv_wrong : forall j, (j < kNumLetters)%nat ->
    Z.testbit (wrong_ (clues game) !!! j) (answer !!! j) = false;
  inv_in_answer : forall x,
    Z.testbit (in_answer_ (clues game)) x = true -> x ∈ answer
}.

(** The update of a guess as the specification words it, position by
    position: an exact match sets [match_[i]]; a letter found elsewhere in
    the answer goes into [wrong_[i]] and [in_answer_]; a letter absent from
    the answer goes into every [wrong_[j]]. *)
Definition applyGuess_spec_step (answer guess : Word) (c : Clues) (i : nat)
    : Clues :=
  let bit := letter_bit (guess !!! i) in
  if guess !!! i =? answer !!! i then
    {| match_ := <[i := guess !!! i]> (match_ c);
       wrong_ := wrong_ c;
       in_answer_ := in_answer_ c |}
  else if bool_decide (guess !!! i ∈ answer) then
    {| match_ := match_ c;
       wrong_ := <[i := Z.lor (wrong_ c !!! i) bit]> (wrong_ c);
       in_answer_ := Z.lor (in_answer_ c) bit |}
  else
    {| match_ := match_ c;
       wrong_ := (fun field => Z.lor field bit) <$> wrong_ c;
       in_answer_ := in_answer_ c |}.

Definition applyGuess_spec (answer guess : Word) (c : Clues) : Clues :=
  foldl (applyGuess_spec_step answer guess) c (seq 0 kNumLetters).

(** The number of feasible answers left by [guess] if [hidden] were the
    answer, the guesses [best_guesses] having been made already. *)
Definition answers_left (valid_answers best_guesses : WordList)
    (hidden guess : Word) : Z :=
  count_if
    (game_matches (addGuess (addGuesses (WorldleGame_new hidden) best_guesses)
                            guess))
    valid_answers.

(** The sum of [answers_left] over every feasible answer taken as the hidden
    one. *)
Definition greedy_score (valid_answers best_guesses : WordList) (guess : Word)
    : Z :=
  foldr (fun hidden acc => answers_left valid_answers best_guesses hidden guess + acc)
        0 valid_answers.

(** The score of a guess as the specification words it: the feasible answers
    that the trial's own session, extended with the guess, still matches. *)
Definition branch_count (trial_game : WorldleGame) (valid_answers : WordList)
    (guess : Word) : Z :=
  count_if (game_matches (fst (getCopyWithGuess trial_game guess))) valid_answers.

(** Words used in the examples: 'light', 'might' and 'fight'. *)
Definition light : Word := [11; 8; 6; 7; 19].
Definition might : Word := [12; 8; 6; 7; 19].
Definition fight : Word := [5; 8; 6; 7; 19].

(** ** Writing and loading words *)

(** The conversion of an [int] to a [char]: the byte congruent to it. *)
Definition int_to_char (n : Z) : ascii := ascii_of_N (Z.to_N (n mod 256)).

(** [std::ostream &operator<<(std::ostream &os, const Word &word)]: the
    string it writes, [str[i] = word[i] + 'a'] at each position. *)
Definition Word_to_string (word : Word) : string :=
  string_of_list_ascii
    ((fun i => int_to_char (word !!! i + Z.of_N (N_of_ascii "a"%char)))
     <$> seq 0 kNumLetters).

(** [constexpr size_t kBufferSize = kNumLetters + 1]. *)
Definition kBufferSize : nat := (kNumLetters + 1)%nat.

(** The line delimiter of [getline], and the terminator it stores. *)
Definition newline : ascii := "010"%char.
Definition nul : ascii := Ascii.zero.

#[local] Instance ascii_inhabited : Inhabited ascii := populate nul.

(** The body of the loop of [loadWordFile]: the word appended from the
    buffer, [word_list.back()[i] = buffer[i] - 'a']. *)
Definition word_of_buffer (char_signed : bool) (buffer : list ascii) : Word :=
  (fun i => char_value char_signed (buffer !!! i)
            - char_value char_signed "a"%char)
  <$> seq 0 kNumLetters.

(** The loop [for (buffer; infile.getline(&buffer[0], kBufferSize);)] of
    [loadWordFile], one input character at a time.  [count] characters of
    the current call of [getline] are stored in [buffer].  [getline] stops,
    in this order, at the end of the input (a call that extracted nothing
    fails; otherwise the line is used and the next call fails), at the
    delimiter (extracted, not stored), or when [kBufferSize - 1] characters
    are stored (the call fails); it then stores the terminator.  A failed
    call ends the loop. *)
Fixpoint read_lines (char_signed : bool) (input buffer : list ascii)
    (count : nat) (word_list : WordList) : WordList :=
  match input with
  | [] =>
      match count with
      | O => word_list
      | S _ =>
          word_list ++ [word_of_buffer char_signed (<[count := nul]> buffer)]
      end
  | c :: rest =>
      if Ascii.eqb c newline then
        read_lines char_signed rest (<[count := nul]> buffer) 0
          (word_list ++ [word_of_buffer char_signed (<[count := nul]> buffer)])
      else if decide (count = kBufferSize - 1)%nat then word_list
      else read_lines char_signed rest (<[count := c]> buffer) (S count)
             word_list
  end.

(** [WordList loadWordFile(const char *file_name)].  [file] is the content
    of the file, [None] when it cannot be opened (every [getline] fails
    then); [buffer] is the content the uninitialised buffer starts with. *)
Definition loadWordFile (char_signed : bool) (buffer : list ascii)
    (file : option (list ascii)) : WordList :=
  match file with
  | None => []
  | Some input => read_lines char_signed input buffer 0 []
  end.

(** The letters a line stands for, symbol by symbol. *)
Definition letters_of (char_signed : bool) (line : list ascii) : Word :=
  (fun c => char_value char_signed c - char_value char_signed "a"%char)
  <$> line.

(** [void run()]: the two files are loaded and joined, one trial is run on
    the answer 445 and [num_trials = 50] trials on the answers
    [i * (num_answers / num_trials)].  The result holds what is printed: the
    count of the first trial, and [total], whose quotient by [num_trials] in
    [float] is the average. *)
Definition run (fuel : nat) (char_signed : bool) (buffer1 buffer2 : list ascii)
    (valid_entry_file answer_file : option (list ascii)) : result (Z * Z) :=
  let non_answer_entries := loadWordFile char_signed buffer1 valid_entry_file in
  let entries := loadWordFile char_signed buffer2 answer_file in
  let num_answers := length entries in
  let entries := entries ++ non_answer_entries in
  let! first := runGreedyTrial fuel entries 445 num_answers in
  let num_trials := 50%nat in
  let! total :=
    foldl (fun acc i =>
             let! total := acc in
             let! count :=
               runGreedyTrial fuel entries (i * (num_answers / num_trials))
                              num_answers in
             Done (total + count))
          (Done 0) (seq 0 num_trials) in
  Done (first, total).

(** The session for [answer] after the guesses [guesses]. *)
Definition session (answer : Word) (guesses : WordList) : WorldleGame :=
  addGuesses (WorldleGame_new answer) guesses.

(** The state in which the loop of [runGreedyTrial] would start had
    [scores] been given one zero per entry. *)
Definition sized_seed_trial (entries : WordList) (answer : Word)
    (num_answers : nat) : trial :=
  let t := seed_trial entries answer num_answers in
  {| trial_game := trial_game t;
     valid_answers := valid_answers t;
     best_guesses := best_guesses t;
     scores := replicate (length entries) 0;
     trial_count := trial_count t |}.

(** What the rounds of a trial for [answer] keep true once [scores] is
    sized. *)
Record trial_inv (entries : WordList) (answer : Word) (t : trial) : Prop := {
  tinv_game : trial_game t = session answer (best_guesses t);
  tinv_guesses : forallb word_ok (best_guesses t) = true;
  tinv_scores : scores t = replicate (length entries) 0;
  tinv_entries : valid_answers t ⊆ entries;
  tinv_nodup : NoDup (valid_answers t);
  tinv_answer : answer ∈ valid_answers t
}.

(** A dictionary, a file and a buffer used in the examples. *)
Definition small_dictionary : WordList := [light; might; fight].


(** A dictionary whose answers are 'roate' and 'light' twice, with 'might' as
    an entry outside the answers; and the states that a trial for 'might' on
    it goes through when [scores] holds one zero per entry: 'light' twice
    stays feasible, and 'roate' is guessed again and again. *)
Definition repeated_dictionary : WordList := [first_guess; light; light; might].
Definition repeated_trial (k : nat) (count : Z) : trial :=
  {| trial_game := addGuess (WorldleGame_new might) first_guess;
     valid_answers := [light; light];
     best_guesses := first_guess :: replicate k first_guess;
     scores := replicate (length repeated_dictionary) 0;
     trial_count := count |}.
Definition roate_line : list ascii := list_ascii_of_string "roate".
Definition light_line : list ascii := list_ascii_of_string "light".
Definition might_line : list ascii := list_ascii_of_string "might".
Definition blank_buffer : list ascii := replicate kBufferSize nul.

(** * Properties *)

(** ** Letter bits *)

Section LetterBits.

Lemma letter_ok_range l : letter_ok l = true <-> 0 <= l < 32.
Proof. unfold letter_ok, kFieldBits. lia. Qed.

Lemma letter_bit_pow l : letter_ok l = true -> letter_bit l = 2 ^ l.
Proof.
  intros Hl%letter_ok_range. unfold letter_bit, kFieldBits.
  rewrite Z.shiftl_1_l. apply Z.mod_small. split; [lia|].
  apply Z.pow_lt_mono_r; lia.
Qed.

Lemma testbit_letter_bit l x :
  letter_ok l = true -> Z.testbit (letter_bit l) x = (l =? x).
Proof.
  intros Hl. rewrite (letter_bit_pow _ Hl).
  apply Z.pow2_bits_eqb. apply letter_ok_range in Hl. lia.
Qed.

Lemma land_letter_bit l m :
  letter_ok l = true ->
  Z.land (letter_bit l) m = if Z.testbit m l then letter_bit l else 0.
Proof.
  intros Hl. apply Z.bits_inj'. intros n Hn.
  rewrite Z.land_spec, (testbit_letter_bit _ _ Hl).
  destruct (Z.eqb_spec l n) as [->|Hne].
  - destruct (Z.testbit m n); [|by rewrite Z.bits_0].
    rewrite (testbit_letter_bit _ _ Hl), Z.eqb_refl. done.
  - destruct (Z.testbit m l); [|by rewrite Z.bits_0].
    rewrite (testbit_letter_bit _ _ Hl). by apply Z.eqb_neq in Hne as ->.
Qed.

Lemma letter_bit_nonzero l : letter_ok l = true -> letter_bit l <> 0.
Proof.
  intros Hl. rewrite (letter_bit_pow _ Hl).
  apply letter_ok_range in Hl. apply Z.pow_nonzero; lia.
Qed.

(** [letter_bit & field] is non-zero exactly when the letter is in the
    field. *)
Lemma land_letter_bit_eqb l m :
  letter_ok l = true ->
  (Z.land (letter_bit l) m =? 0) = negb (Z.testbit m l).
Proof.
  intros Hl. rewrite (land_letter_bit _ _ Hl).
  destruct (Z.testbit m l); [|done].
  apply Z.eqb_neq. by apply letter_bit_nonzero.
Qed.

(** [field & other == field] is inclusion of the sets of bits. *)
Lemma land_subset a b :
  Z.land a b = a <-> forall x, Z.testbit a x = true -> Z.testbit b x = true.
Proof.
  split.
  - intros H x Hx. rewrite <- H in Hx. rewrite Z.land_spec in Hx.
    by apply andb_true_iff in Hx as [_ ?].
  - intros H. apply Z.bits_inj'. intros n _. rewrite Z.land_spec.
    destruct (Z.testbit a n) eqn:E; [|done]. by rewrite (H _ E).
Qed.

End LetterBits.

Lemma word_ok_length w : word_ok w = true -> length w = kNumLetters.
Proof.
  unfold word_ok. intros [H _]%andb_true_iff. by apply Nat.eqb_eq in H.
Qed.

Lemma word_ok_lookup w i : word_ok w = true -> letter_ok (w !!! i) = true.
Proof.
  unfold word_ok. intros [_ H]%andb_true_iff.
  rewrite forallb_forall in H.
  destruct (w !! i) as [x|] eqn:E.
  - rewrite (list_lookup_total_correct _ _ _ E). apply H.
    apply list_elem_of_In. by eapply list_elem_of_lookup_2.
  - rewrite list_lookup_total_alt, E. done.
Qed.

(** The letters of a word are the values at its [kNumLetters] positions. *)
Lemma word_ok_elem w x :
  word_ok w = true ->
  x ∈ w <-> exists i, (i < kNumLetters)%nat /\ w !!! i = x.
Proof.
  intros Hw. pose proof (word_ok_length _ Hw) as Hlen.
  rewrite list_elem_of_lookup. split.
  - intros [i Hi]. exists i. split.
    + rewrite <- Hlen. by eapply lookup_lt_Some.
    + by apply list_lookup_total_correct.
  - intros [i [Hi <-]]. exists i. apply list_lookup_lookup_total_lt. lia.
Qed.

(** ** Clues::matches *)

Lemma matches_loop_unfold this word idx in_word :
  matches_loop this word idx in_word =
  if existsb (position_rejects this word) idx then None
  else Some (letters_seen word idx in_word).
Proof.
  revert in_word. induction idx as [|i rest IH]; intros in_word; [done|].
  cbn [matches_loop existsb letters_seen foldl]. unfold position_rejects at 1.
  destruct (negb (match_ this !!! i =? kUnknownLetter)
            && negb (match_ this !!! i =? word !!! i)); [done|].
  cbn [orb].
  destruct (negb (Z.land (letter_bit (word !!! i)) (wrong_ this !!! i) =? 0));
    [done|].
  cbn [orb]. apply IH.
Qed.

Lemma testbit_letters_seen word idx in_word x :
  word_ok word = true ->
  Z.testbit (letters_seen word idx in_word) x =
  Z.testbit in_word x || existsb (fun i => word !!! i =? x) idx.
Proof.
  intros Hw. revert in_word.
  induction idx as [|i rest IH]; intros in_word; cbn [letters_seen foldl existsb].
  - by rewrite orb_false_r.
  - fold (letters_seen word rest (Z.lor in_word (letter_bit (word !!! i)))).
    rewrite IH, Z.lor_spec, testbit_letter_bit by by apply word_ok_lookup.
    by rewrite orb_assoc.
Qed.

Lemma existsb_positions (p : nat -> bool) n :
  existsb p (seq 0 n) = true <-> exists i, (i < n)%nat /\ p i = true.
Proof.
  rewrite existsb_exists. split.
  - intros [i [Hi ?]]. apply in_seq in Hi. exists i. split; [lia|done].
  - intros [i [Hi ?]]. exists i. split; [|done]. apply in_seq. lia.
Qed.

(** The letters collected by a full run of the loop are the letters of the
    word. *)
Lemma testbit_in_word word x :
  word_ok word = true ->
  Z.testbit (letters_seen word (seq 0 kNumLetters) 0) x = true <-> x ∈ word.
Proof.
  intros Hw. rewrite testbit_letters_seen, Z.bits_0 by done. cbn [orb].
  rewrite existsb_positions, word_ok_elem by done.
  split; intros [i [Hi H]]; exists i; (split; [done|]); lia.
Qed.

Lemma position_rejects_iff this word i :
  word_ok word = true ->
  position_rejects this word i = true <->
  (match_ this !!! i <> kUnknownLetter /\ match_ this !!! i <> word !!! i)
  \/ Z.testbit (wrong_ this !!! i) (word !!! i) = true.
Proof.
  intros Hw. unfold position_rejects.
  rewrite land_letter_bit_eqb by by apply word_ok_lookup.
  rewrite negb_involutive, orb_true_iff, andb_true_iff, !negb_true_iff.
  by rewrite !Z.eqb_neq.
Qed.

(** C2.  For every clue state and every word [w] of [kNumLetters] letters that
    fit a [LetterField], [matches] answers [false] exactly when some position
    [i] has [match_[i]] set and different from [w[i]], or has the bit of
    [w[i]] in [wrong_[i]], or when [in_answer_] is not included in the letters
    of [w]; and the call leaves the clue state as it found it. *)
Theorem matches_false_iff (this : Clues) (w : Word) :
  word_ok w = true ->
  (fst (matches this w) = false <->
     (exists i, (i < kNumLetters)%nat /\
        ((match_ this !!! i <> kUnknownLetter /\ match_ this !!! i <> w !!! i)
         \/ Z.testbit (wrong_ this !!! i) (w !!! i) = true))
     \/ ~ (forall x, Z.testbit (in_answer_ this) x = true -> x ∈ w))
  /\ snd (matches this w) = this.
Proof.
  intros Hw. unfold matches. rewrite matches_loop_unfold.
  destruct (existsb (position_rejects this w) (seq 0 kNumLetters)) eqn:E.
  - split; [|done]. split; [intros _|done]. left.
    apply existsb_positions in E as [i [Hi Hr]]. exists i. split; [done|].
    by apply position_rejects_iff.
  - assert (Hnone : ~ exists i, (i < kNumLetters)%nat /\
        ((match_ this !!! i <> kUnknownLetter /\ match_ this !!! i <> w !!! i)
         \/ Z.testbit (wrong_ this !!! i) (w !!! i) = true)).
    { intros [i [Hi Hr]]. apply position_rejects_iff in Hr; [|done].
      assert (existsb (position_rejects this w) (seq 0 kNumLetters) = true)
        by (apply existsb_positions; eauto).
      congruence. }
    assert (Hsub : Z.land (in_answer_ this)
                     (letters_seen w (seq 0 kNumLetters) 0) = in_answer_ this
                   <-> forall x, Z.testbit (in_answer_ this) x = true -> x ∈ w).
    { rewrite land_subset. split; intros H x Hx.
      - apply testbit_in_word; auto.
      - apply testbit_in_word; auto. }
    destruct (Z.eqb_spec (Z.land (in_answer_ this)
                (letters_seen w (seq 0 kNumLetters) 0)) (in_answer_ this))
      as [Heq|Hne]; cbn [negb fst snd].
    + split; [|done]. split; [done|]. intros [H|H]; [by destruct Hnone|].
      destruct H. by apply Hsub.
    + split; [|done]. split; [|done]. intros _. right. intros H.
      apply Hne. by apply Hsub.
Qed.

(** ** WorldleGame::addGuess: the state after the loop *)

Section AddGuessLoop.

Variable guess : Word.

Lemma addGuess_step_answer this i :
  answer_ (addGuess_step guess this i) = answer_ this
  /\ answer_bits_ (addGuess_step guess this i) = answer_bits_ this.
Proof. done. Qed.

Lemma addGuess_step_length this i :
  length (match_ (clues (addGuess_step guess this i)))
    = length (match_ (clues this))
  /\ length (wrong_ (clues (addGuess_step guess this i)))
    = length (wrong_ (clues this)).
Proof.
  unfold addGuess_step. cbn [clues].
  repeat case_match; cbn [match_ wrong_];
    rewrite ?length_insert, ?length_fmap; done.
Qed.

Lemma addGuess_step_in_answer this i :
  in_answer_ (clues (addGuess_step guess this i)) =
  Z.lor (in_answer_ (clues this))
        (Z.land (letter_bit (guess !!! i)) (answer_bits_ this)).
Proof. unfold addGuess_step. cbn [clues]. by repeat case_match. Qed.

Lemma addGuess_step_wrong this i j :
  (j < length (wrong_ (clues this)))%nat ->
  wrong_ (clues (addGuess_step guess this i)) !!! j =
  Z.lor (wrong_ (clues this) !!! j)
        (forbidden_by (answer_ this) (answer_bits_ this) guess j i).
Proof.
  intros Hj. unfold addGuess_step, forbidden_by. cbn [clues].
  repeat case_match; cbn [wrong_]; subst.
  - by rewrite Z.lor_0_r.
  - by rewrite list_lookup_total_insert_eq.
  - by rewrite list_lookup_total_insert_ne, Z.lor_0_r.
  - by rewrite (@list_lookup_total_fmap Z Z _ _ _).
Qed.

Lemma addGuess_step_match this i j :
  (j < length (match_ (clues this)))%nat ->
  match_ (clues (addGuess_step guess this i)) !!! j =
  if (i =? j)%nat && (guess !!! i =? answer_ this !!! i)
  then answer_ this !!! j else match_ (clues this) !!! j.
Proof.
  intros Hj. unfold addGuess_step. cbn [clues].
  destruct (Nat.eqb_spec i j) as [->|Hne]; cbn [andb];
    repeat case_match; cbn [match_]; try done.
  - by rewrite list_lookup_total_insert_eq.
  - by rewrite list_lookup_total_insert_ne.
Qed.

Lemma addGuess_loop_answer idx this :
  answer_ (foldl (addGuess_step guess) this idx) = answer_ this
  /\ answer_bits_ (foldl (addGuess_step guess) this idx) = answer_bits_ this.
Proof.
  revert this. induction idx as [|i rest IH]; intros this; [done|].
  cbn [foldl]. destruct (IH (addGuess_step guess this i)) as [-> ->]. done.
Qed.

Lemma addGuess_loop_length idx this :
  length (match_ (clues (foldl (addGuess_step guess) this idx)))
    = length (match_ (clues this))
  /\ length (wrong_ (clues (foldl (addGuess_step guess) this idx)))
    = length (wrong_ (clues this)).
Proof.
  revert this. induction idx as [|i rest IH]; intros this; [done|].
  cbn [foldl]. destruct (IH (addGuess_step guess this i)) as [-> ->].
  apply addGuess_step_length.
Qed.

Lemma addGuess_loop_in_answer idx this :
  in_answer_ (clues (foldl (addGuess_step guess) this idx)) =
  foldl (fun acc i =>
           Z.lor acc (Z.land (letter_bit (guess !!! i)) (answer_bits_ this)))
        (in_answer_ (clues this)) idx.
Proof.
  revert this. induction idx as [|i rest IH]; intros this; [done|].
  cbn [foldl]. rewrite IH, addGuess_step_in_answer. done.
Qed.

Lemma addGuess_loop_wrong idx this j :
  (j < length (wrong_ (clues this)))%nat ->
  wrong_ (clues (foldl (addGuess_step guess) this idx)) !!! j =
  foldl (fun acc i =>
           Z.lor acc (forbidden_by (answer_ this) (answer_bits_ this) guess j i))
        (wrong_ (clues this) !!! j) idx.
Proof.
  revert this. induction idx as [|i rest IH]; intros this Hj; [done|].
  cbn [foldl]. rewrite IH.
  - by rewrite addGuess_step_wrong.
  - by rewrite (proj2 (addGuess_step_length this i)).
Qed.

Lemma addGuess_loop_match idx this j :
  (j < length (match_ (clues this)))%nat ->
  match_ (clues (foldl (addGuess_step guess) this idx)) !!! j =
  if existsb (fun i => (i =? j)%nat && (guess !!! i =? answer_ this !!! i)) idx
  then answer_ this !!! j else match_ (clues this) !!! j.
Proof.
  revert this. induction idx as [|i rest IH]; intros this Hj; [done|].
  cbn [foldl existsb]. rewrite IH.
  - cbn [addGuess_step answer_]. rewrite addGuess_step_match by done.
    destruct ((i =? j)%nat && (guess !!! i =? answer_ this !!! i)); cbn [orb].
    + by case_match.
    + done.
  - by rewrite (proj1 (addGuess_step_length this i)).
Qed.

End AddGuessLoop.

(** A bit of a field built by or-ing contributions along a loop. *)
Lemma testbit_foldl_lor {A : Type} (f : A -> Z) (l : list A) (acc x : Z) :
  Z.testbit (foldl (fun a i => Z.lor a (f i)) acc l) x =
  Z.testbit acc x || existsb (fun i => Z.testbit (f i) x) l.
Proof.
  revert acc. induction l as [|i rest IH]; intros acc; cbn [foldl existsb].
  - by rewrite orb_false_r.
  - by rewrite IH, Z.lor_spec, orb_assoc.
Qed.

(** ** Sessions built from an answer *)

Lemma existsb_letter_eq (w : Word) x :
  existsb (fun l => l =? x) w = true <-> x ∈ w.
Proof.
  rewrite existsb_exists. split.
  - intros [l [Hl ->%Z.eqb_eq]]. by apply list_elem_of_In.
  - intros H. exists x. split; [by apply list_elem_of_In|apply Z.eqb_refl].
Qed.

Lemma existsb_eq_on {A : Type} (p q : A -> bool) (l : list A) :
  (forall a, In a l -> p a = q a) -> existsb p l = existsb q l.
Proof.
  induction l as [|a l IH]; intros H; [done|]. cbn [existsb].
  rewrite H by by left. rewrite IH; [done|]. intros b Hb. apply H. by right.
Qed.

Lemma word_ok_In w l : word_ok w = true -> In l w -> letter_ok l = true.
Proof.
  unfold word_ok. intros [_ H]%andb_true_iff. rewrite forallb_forall in H. auto.
Qed.

(** [answer_bits_] as the constructor leaves it holds the letters of the
    answer. *)
Lemma answer_bits_new answer x :
  word_ok answer = true ->
  Z.testbit (answer_bits_ (WorldleGame_new answer)) x = true <-> x ∈ answer.
Proof.
  intros Hw. cbn [WorldleGame_new answer_bits_].
  rewrite testbit_foldl_lor, Z.bits_0. cbn [orb].
  rewrite <- existsb_letter_eq.
  rewrite (existsb_eq_on _ (fun l => l =? x)); [done|].
  intros l Hl. apply testbit_letter_bit. by eapply word_ok_In.
Qed.

Lemma session_inv_new answer :
  word_ok answer = true -> session_inv answer (WorldleGame_new answer).
Proof.
  intros Hw. split; cbn [WorldleGame_new clues Clues_new match_ wrong_ in_answer_
                         answer_].
  - done.
  - intros x. by apply answer_bits_new.
  - apply length_replicate.
  - apply length_replicate.
  - intros j Hj. left. by apply lookup_total_replicate_2.
  - intros j Hj. rewrite lookup_total_replicate_2 by done. apply Z.bits_0.
  - intros x. by rewrite Z.bits_0.
Qed.

Section AddGuessEffect.

Variables (answer guess : Word) (game : WorldleGame).
Hypothesis Hanswer : word_ok answer = true.
Hypothesis Hguess : word_ok guess = true.
Hypothesis Hinv : session_inv answer game.

Lemma guess_in_answer_eqb i :
  (Z.land (letter_bit (guess !!! i)) (answer_bits_ game) =? 0) = true
  <-> guess !!! i ∉ answer.
Proof.
  rewrite land_letter_bit_eqb by by apply word_ok_lookup.
  rewrite negb_true_iff, <- not_true_iff_false.
  by rewrite (inv_bits _ _ Hinv).
Qed.

Lemma addGuess_answer :
  answer_ (addGuess game guess) = answer
  /\ answer_bits_ (addGuess game guess) = answer_bits_ game.
Proof.
  unfold addGuess.
  destruct (addGuess_loop_answer guess (seq 0 kNumLetters) game) as [-> ->].
  split; [apply Hinv|done].
Qed.

Lemma addGuess_match j :
  (j < kNumLetters)%nat ->
  match_ (clues (addGuess game guess)) !!! j =
  if guess !!! j =? answer !!! j then guess !!! j
  else match_ (clues game) !!! j.
Proof.
  intros Hj. unfold addGuess.
  rewrite addGuess_loop_match by by rewrite (inv_match_length _ _ Hinv).
  rewrite (inv_answer _ _ Hinv).
  destruct (Z.eqb_spec (guess !!! j) (answer !!! j)) as [Heq|Hne].
  - replace (existsb _ _) with true; [done|].
    symmetry. apply existsb_positions. exists j. split; [done|].
    rewrite Nat.eqb_refl. cbn [andb]. by apply Z.eqb_eq.
  - replace (existsb _ _) with false; [done|].
    symmetry. apply not_true_iff_false.
    intros [i [_ [->%Nat.eqb_eq ?%Z.eqb_eq]%andb_true_iff]]%existsb_positions.
    done.
Qed.

Lemma addGuess_wrong j x :
  (j < kNumLetters)%nat ->
  Z.testbit (wrong_ (clues (addGuess game guess)) !!! j) x = true <->
  Z.testbit (wrong_ (clues game) !!! j) x = true
  \/ (x = guess !!! j /\ guess !!! j <> answer !!! j /\ x ∈ answer)
  \/ (x ∈ guess /\ x ∉ answer).
Proof.
  intros Hj. unfold addGuess.
  rewrite addGuess_loop_wrong by by rewrite (inv_wrong_length _ _ Hinv).
  rewrite testbit_foldl_lor, orb_true_iff, existsb_positions.
  rewrite (inv_answer _ _ Hinv).
  apply or_iff_compat_l. unfold forbidden_by. split.
  - intros [i [Hi H]].
    destruct (Z.eqb_spec (guess !!! i) (answer !!! i)) as [Heq|Hne];
      [by rewrite Z.bits_0 in H|].
    destruct (Z.land (letter_bit (guess !!! i)) (answer_bits_ game) =? 0)
      eqn:E; cbn [negb] in H.
    + apply guess_in_answer_eqb in E.
      rewrite testbit_letter_bit in H by by apply word_ok_lookup.
      apply Z.eqb_eq in H. subst x. right. split; [|done].
      apply word_ok_elem; eauto.
    + apply not_true_iff_false in E. rewrite guess_in_answer_eqb in E.
      case_decide; [|by rewrite Z.bits_0 in H]. subst i.
      rewrite testbit_letter_bit in H by by apply word_ok_lookup.
      apply Z.eqb_eq in H. subst x. left. split; [done|]. split; [done|].
      destruct (decide (guess !!! j ∈ answer)); done.
  - intros [[-> [Hne Hin]]|[Hin Hnot]].
    + exists j. split; [done|].
      destruct (Z.eqb_spec (guess !!! j) (answer !!! j)); [done|].
      replace (Z.land (letter_bit (guess !!! j)) (answer_bits_ game) =? 0)
        with false.
      * cbn [negb]. rewrite decide_True by done.
        rewrite testbit_letter_bit by by apply word_ok_lookup.
        apply Z.eqb_refl.
      * symmetry. apply not_true_iff_false. rewrite guess_in_answer_eqb. tauto.
    + apply word_ok_elem in Hin as [i [Hi <-]]; [|done].
      exists i. split; [done|].
      destruct (Z.eqb_spec (guess !!! i) (answer !!! i)) as [Heq|Hne].
      { destruct Hnot. rewrite Heq. apply word_ok_elem; eauto. }
      replace (Z.land (letter_bit (guess !!! i)) (answer_bits_ game) =? 0)
        with true by (symmetry; by apply guess_in_answer_eqb).
      cbn [negb]. rewrite testbit_letter_bit by by apply word_ok_lookup.
      apply Z.eqb_refl.
Qed.

Lemma addGuess_in_answer x :
  Z.testbit (in_answer_ (clues (addGuess game guess))) x = true <->
  Z.testbit (in_answer_ (clues game)) x = true \/ (x ∈ guess /\ x ∈ answer).
Proof.
  unfold addGuess. rewrite addGuess_loop_in_answer.
  rewrite testbit_foldl_lor, orb_true_iff, existsb_positions.
  apply or_iff_compat_l. split.
  - intros [i [Hi H]]. rewrite Z.land_spec in H.
    apply andb_true_iff in H as [H1 H2].
    rewrite testbit_letter_bit in H1 by by apply word_ok_lookup.
    apply Z.eqb_eq in H1. subst x. split.
    + apply word_ok_elem; eauto.
    + by apply (inv_bits _ _ Hinv).
  - intros [Hin HinA]. apply word_ok_elem in Hin as [i [Hi <-]]; [|done].
    exists i. split; [done|]. rewrite Z.land_spec.
    rewrite testbit_letter_bit by by apply word_ok_lookup.
    rewrite Z.eqb_refl. by apply (inv_bits _ _ Hinv).
Qed.

Lemma session_inv_addGuess : session_inv answer (addGuess game guess).
Proof.
  destruct addGuess_answer as [Ha Hb].
  destruct (addGuess_loop_length guess (seq 0 kNumLetters) game) as [Hm Hw].
  fold (addGuess game guess) in Hm, Hw.
  split.
  - done.
  - intros x. rewrite Hb. apply Hinv.
  - rewrite Hm. apply Hinv.
  - rewrite Hw. apply Hinv.
  - intros j Hj. rewrite addGuess_match by done.
    destruct (Z.eqb_spec (guess !!! j) (answer !!! j)); [by right|].
    by apply Hinv.
  - intros j Hj. apply not_true_iff_false. rewrite addGuess_wrong by done.
    intros [H|[[H1 [H2 _]]|[_ H]]].
    + by rewrite (inv_wrong _ _ Hinv) in H.
    + by rewrite H1 in H2.
    + destruct H. apply word_ok_elem; eauto.
  - intros x [H|[_ H]]%addGuess_in_answer; [|done].
    by apply (inv_in_answer _ _ Hinv).
Qed.

End AddGuessEffect.

Lemma session_inv_addGuesses answer guesses game :
  word_ok answer = true -> forallb word_ok guesses = true ->
  session_inv answer game -> session_inv answer (addGuesses game guesses).
Proof.
  intros Ha. revert game.
  induction guesses as [|g gs IH]; intros game Hgs Hinv; [done|].
  cbn [forallb] in Hgs. apply andb_true_iff in Hgs as [Hg Hgs].
  cbn [addGuesses foldl]. apply IH; [done|]. by apply session_inv_addGuess.
Qed.

Lemma session_inv_reached answer guesses :
  word_ok answer = true -> forallb word_ok guesses = true ->
  session_inv answer (addGuesses (WorldleGame_new answer) guesses).
Proof.
  intros. apply session_inv_addGuesses; [done..|]. by apply session_inv_new.
Qed.

(** ** The effect of a guess *)

(** C1, as stated, fails: guessing 'roate' against the answer 'roate' is an
    exact match at every position, and the code also puts the five letters
    into [in_answer_], which the worded update leaves empty. *)
Lemma addGuess_not_applyGuess_spec :
  clues (addGuess (WorldleGame_new first_guess) first_guess)
  <> applyGuess_spec first_guess first_guess (clues (WorldleGame_new first_guess)).
Proof. intros H. apply (f_equal in_answer_) in H. vm_compute in H. discriminate. Qed.

(** C1, amended.  For a session with answer [A] reached through any guesses,
    a further guess [g] leaves, at every position [j], [match_[j]] equal to
    [g[j]] when [g[j] = A[j]] and untouched otherwise; adds to [wrong_[j]]
    exactly the letter [g[j]] when it differs from [A[j]] and occurs in [A],
    and every letter of [g] that does not occur in [A]; and adds to
    [in_answer_] exactly the letters of [g] that occur in [A], the exactly
    matched ones included. *)
Theorem addGuess_effect (answer : Word) (guesses : WordList) (guess : Word) :
  word_ok answer = true -> forallb word_ok guesses = true ->
  word_ok guess = true ->
  let game := addGuesses (WorldleGame_new answer) guesses in
  let game' := addGuess game guess in
  (forall j, (j < kNumLetters)%nat ->
     match_ (clues game') !!! j =
     if guess !!! j =? answer !!! j then guess !!! j
     else match_ (clues game) !!! j)
  /\ (forall j x, (j < kNumLetters)%nat ->
        Z.testbit (wrong_ (clues game') !!! j) x = true <->
        Z.testbit (wrong_ (clues game) !!! j) x = true
        \/ (x = guess !!! j /\ guess !!! j <> answer !!! j /\ x ∈ answer)
        \/ (x ∈ guess /\ x ∉ answer))
  /\ (forall x,
        Z.testbit (in_answer_ (clues game')) x = true <->
        Z.testbit (in_answer_ (clues game)) x = true
        \/ (x ∈ guess /\ x ∈ answer)).
Proof.
  intros Ha Hgs Hg game game'.
  pose proof (session_inv_reached answer guesses Ha Hgs) as Hinv.
  fold game in Hinv. subst game'. split; [|split].
  - intros j Hj. by apply addGuess_match.
  - intros j x Hj. by apply addGuess_wrong.
  - intros x. by apply addGuess_in_answer.
Qed.

(** ** When a word matches *)

Lemma existsb_positions_false (p : nat -> bool) n :
  existsb p (seq 0 n) = false <-> forall i, (i < n)%nat -> p i = false.
Proof.
  rewrite <- not_true_iff_false, existsb_positions. split.
  - intros H i Hi. apply not_true_iff_false. intros Hp. apply H. eauto.
  - intros H [i [Hi Hp]]. rewrite H in Hp by done. done.
Qed.

(** [matches] answers [true] exactly when every position passes both tests
    of the loop and [in_answer_] is included in the letters of the word. *)
Lemma matches_true_iff (this : Clues) (w : Word) :
  word_ok w = true ->
  fst (matches this w) = true <->
  (forall i, (i < kNumLetters)%nat ->
     (match_ this !!! i = kUnknownLetter \/ match_ this !!! i = w !!! i)
     /\ Z.testbit (wrong_ this !!! i) (w !!! i) = false)
  /\ (forall x, Z.testbit (in_answer_ this) x = true -> x ∈ w).
Proof.
  intros Hw. unfold matches. rewrite matches_loop_unfold.
  destruct (existsb (position_rejects this w) (seq 0 kNumLetters)) eqn:E.
  - cbn [fst]. split; [done|]. intros [Hpos _].
    apply existsb_positions in E as [i [Hi Hr]].
    apply position_rejects_iff in Hr; [|done].
    destruct (Hpos i Hi) as [Hm Hb].
    destruct Hr as [[H1 H2]|H]; [by destruct Hm|congruence].
  - assert (Hpos : forall i, (i < kNumLetters)%nat ->
       (match_ this !!! i = kUnknownLetter \/ match_ this !!! i = w !!! i)
       /\ Z.testbit (wrong_ this !!! i) (w !!! i) = false).
    { intros i Hi.
      pose proof (proj1 (existsb_positions_false _ _) E i Hi) as Hr.
      apply not_true_iff_false in Hr.
      rewrite position_rejects_iff in Hr by done.
      split.
      - destruct (decide (match_ this !!! i = kUnknownLetter)); [by left|].
        destruct (decide (match_ this !!! i = w !!! i)); [by right|].
        destruct Hr. by left.
      - apply not_true_iff_false. intros H. apply Hr. by right. }
    assert (Hsub : Z.land (in_answer_ this)
                     (letters_seen w (seq 0 kNumLetters) 0) = in_answer_ this
                   <-> forall x, Z.testbit (in_answer_ this) x = true -> x ∈ w).
    { rewrite land_subset. split; intros H x Hx; apply testbit_in_word; auto. }
    destruct (Z.eqb_spec (Z.land (in_answer_ this)
                (letters_seen w (seq 0 kNumLetters) 0)) (in_answer_ this))
      as [Heq|Hne]; cbn [negb fst].
    + split; [|done]. intros _. split; [done|]. by apply Hsub.
    + split; [done|]. intros [_ H]. destruct Hne. by apply Hsub.
Qed.

(** ** Self-consistency *)

Lemma session_inv_matches answer game :
  word_ok answer = true -> session_inv answer game ->
  game_matches game answer = true.
Proof.
  intros Ha Hinv. unfold game_matches.
  apply matches_true_iff; [done|]. split.
  - intros i Hi. split.
    + apply (inv_match _ _ Hinv i Hi).
    + apply (inv_wrong _ _ Hinv i Hi).
  - apply (inv_in_answer _ _ Hinv).
Qed.

(** C5.  For every answer [A] and every sequence of guesses, [matches(A)] is
    true in the session built from [A] after each of the guesses (after the
    first [n] of them, for every [n]; [n = 0] is the fresh session). *)
Theorem answer_always_matches (answer : Word) (guesses : WordList) (n : nat) :
  word_ok answer = true -> forallb word_ok guesses = true ->
  game_matches (addGuesses (WorldleGame_new answer) (take n guesses)) answer
  = true.
Proof.
  intros Ha Hgs. apply session_inv_matches; [done|].
  apply session_inv_reached; [done|].
  apply forallb_forall. intros g Hg. rewrite forallb_forall in Hgs.
  apply Hgs. apply list_elem_of_In. apply list_elem_of_In in Hg.
  by apply (subseteq_take n guesses).
Qed.

(** ** Monotone growth *)

(** C7.  In a session reached from an answer, a guess leaves every
    [match_[j]] that was set as it was, keeps every bit of every
    [wrong_[j]], and keeps every bit of [in_answer_]. *)
Theorem addGuess_monotone (answer : Word) (guesses : WordList) (guess : Word) :
  word_ok answer = true -> forallb word_ok guesses = true ->
  word_ok guess = true ->
  let game := addGuesses (WorldleGame_new answer) guesses in
  let game' := addGuess game guess in
  (forall j, (j < kNumLetters)%nat ->
     match_ (clues game) !!! j <> kUnknownLetter ->
     match_ (clues game') !!! j = match_ (clues game) !!! j)
  /\ (forall j x, (j < kNumLetters)%nat ->
        Z.testbit (wrong_ (clues game) !!! j) x = true ->
        Z.testbit (wrong_ (clues game') !!! j) x = true)
  /\ (forall x,
        Z.testbit (in_answer_ (clues game)) x = true ->
        Z.testbit (in_answer_ (clues game')) x = true).
Proof.
  intros Ha Hgs Hg game game'.
  pose proof (session_inv_reached answer guesses Ha Hgs) as Hinv.
  fold game in Hinv. subst game'. split; [|split].
  - intros j Hj Hset. rewrite (addGuess_match answer) by done.
    destruct (Z.eqb_spec (guess !!! j) (answer !!! j)) as [Heq|]; [|done].
    destruct (inv_match _ _ Hinv j Hj); congruence.
  - intros j x Hj H. apply (addGuess_wrong answer); auto.
  - intros x H. apply (addGuess_in_answer answer); auto.
Qed.

(** ** Idempotence and branching *)

Lemma list_eq_total (l1 l2 : list Z) :
  length l1 = length l2 ->
  (forall j, (j < length l1)%nat -> l1 !!! j = l2 !!! j) -> l1 = l2.
Proof.
  intros Hlen H. apply (list_eq_same_length _ _ (length l1)); [done..|].
  intros i x y Hi Hx Hy.
  rewrite <- (list_lookup_total_correct _ _ _ Hx).
  rewrite <- (list_lookup_total_correct _ _ _ Hy). by apply H.
Qed.

Lemma foldl_lor_twice {A : Type} (f : A -> Z) (l : list A) (acc : Z) :
  foldl (fun a i => Z.lor a (f i)) (foldl (fun a i => Z.lor a (f i)) acc l) l
  = foldl (fun a i => Z.lor a (f i)) acc l.
Proof.
  apply Z.bits_inj'. intros x _. rewrite !testbit_foldl_lor.
  destruct (Z.testbit acc x), (existsb _ l); done.
Qed.

Lemma WorldleGame_eq (a b : WorldleGame) :
  match_ (clues a) = match_ (clues b) ->
  wrong_ (clues a) = wrong_ (clues b) ->
  in_answer_ (clues a) = in_answer_ (clues b) ->
  answer_ a = answer_ b -> answer_bits_ a = answer_bits_ b -> a = b.
Proof.
  destruct a as [[] ? ?], b as [[] ? ?]. cbn. by intros -> -> -> -> ->.
Qed.

(** C8.  Applying a guess a second time changes nothing: the game after
    [addGuess g; addGuess g] equals the game after [addGuess g], in
    [match_], [wrong_], [in_answer_] and the answer. *)
Theorem addGuess_idempotent (game : WorldleGame) (guess : Word) :
  addGuess (addGuess game guess) guess = addGuess game guess.
Proof.
  destruct (addGuess_loop_answer guess (seq 0 kNumLetters) game) as [Ha Hb].
  destruct (addGuess_loop_length guess (seq 0 kNumLetters) game) as [Hm Hw].
  fold (addGuess game guess) in Ha, Hb, Hm, Hw.
  destruct (addGuess_loop_answer guess (seq 0 kNumLetters)
              (addGuess game guess)) as [Ha' Hb'].
  destruct (addGuess_loop_length guess (seq 0 kNumLetters)
              (addGuess game guess)) as [Hm' Hw'].
  fold (addGuess (addGuess game guess) guess) in Ha', Hb', Hm', Hw'.
  apply WorldleGame_eq; [| | |done..].
  - apply list_eq_total; [done|]. intros j Hj. rewrite Hm' in Hj.
    unfold addGuess at 1. rewrite addGuess_loop_match by done.
    rewrite Ha. unfold addGuess. rewrite Hm in Hj.
    rewrite addGuess_loop_match by done. by case_match.
  - apply list_eq_total; [done|]. intros j Hj. rewrite Hw' in Hj.
    unfold addGuess at 1. rewrite addGuess_loop_wrong by done.
    rewrite Ha, Hb. unfold addGuess. rewrite Hw in Hj.
    rewrite addGuess_loop_wrong by done. apply foldl_lor_twice.
  - unfold addGuess at 1. rewrite addGuess_loop_in_answer, Hb.
    unfold addGuess. rewrite addGuess_loop_in_answer.
    apply (foldl_lor_twice
             (fun i => Z.land (letter_bit (guess !!! i)) (answer_bits_ game))).
Qed.

(** C9.  [getCopyWithGuess] returns the receiver's state with the guess
    applied, and the receiver itself comes out of the call with the clues
    ([match_], [wrong_], [in_answer_]) and the answer it went in with. *)
Theorem getCopyWithGuess_frame (game : WorldleGame) (guess : Word) :
  fst (getCopyWithGuess game guess) = addGuess game guess
  /\ match_ (clues (snd (getCopyWithGuess game guess))) = match_ (clues game)
  /\ wrong_ (clues (snd (getCopyWithGuess game guess))) = wrong_ (clues game)
  /\ in_answer_ (clues (snd (getCopyWithGuess game guess)))
     = in_answer_ (clues game)
  /\ answer_ (snd (getCopyWithGuess game guess)) = answer_ game
  /\ answer_bits_ (snd (getCopyWithGuess game guess)) = answer_bits_ game.
Proof. unfold getCopyWithGuess. cbn [fst snd]. repeat split. Qed.

(** ** Scoring a round *)

Lemma add_score_in_bounds (scores : list Z) i v :
  (i < length scores)%nat ->
  add_score scores i v = Done (<[i := scores !!! i + v]> scores).
Proof. intros H. unfold add_score. by rewrite decide_True. Qed.

Section ScoreLoops.

Variables (entries valid_answers : WordList).

(** The inner loop after its first [n] entries. *)
Lemma score_entries_prefix (game : WorldleGame) (scores : list Z) (n : nat) :
  (n <= length entries)%nat -> length scores = length entries ->
  exists scores',
    foldl (fun acc i =>
             let! scores := acc in
             let game_with_guess := fst (getCopyWithGuess game (entries !!! i)) in
             add_score scores i
               (count_if (game_matches game_with_guess) valid_answers))
          (Done scores) (seq 0 n) = Done scores'
    /\ length scores' = length scores
    /\ forall i, scores' !!! i =
         if decide (i < n)%nat
         then scores !!! i
              + count_if (game_matches (addGuess game (entries !!! i)))
                         valid_answers
         else scores !!! i.
Proof.
  intros Hn Hlen. induction n as [|n IH].
  - exists scores. split; [done|]. split; [done|]. intros i.
    rewrite decide_False by lia. done.
  - destruct IH as [s [Hs [Hl Hv]]]; [lia|].
    rewrite seq_S, foldl_app, Hs. cbn [foldl bind Nat.add].
    rewrite add_score_in_bounds by lia.
    eexists. split; [done|]. split; [by rewrite length_insert|].
    intros i. rewrite list_lookup_total_insert.
    destruct (decide (n = i)) as [->|Hne].
    + rewrite decide_True by lia. rewrite decide_True by lia.
      rewrite Hv, decide_False by lia. done.
    + rewrite decide_False by tauto. rewrite Hv.
      destruct (decide (i < n)%nat), (decide (i < S n)%nat); done || lia.
Qed.

Lemma score_entries_total (game : WorldleGame) (scores : list Z) :
  length scores = length entries ->
  exists scores',
    score_entries entries valid_answers game scores = Done scores'
    /\ length scores' = length scores
    /\ forall i, (i < length entries)%nat ->
         scores' !!! i =
         scores !!! i
         + count_if (game_matches (addGuess game (entries !!! i))) valid_answers.
Proof.
  intros Hlen.
  destruct (score_entries_prefix game scores (length entries))
    as [s [Hs [Hl Hv]]]; [done..|].
  exists s. split; [done|]. split; [done|]. intros i Hi.
  by rewrite Hv, decide_True.
Qed.

(** The outer loop over the answers [hidden], whatever list they are. *)
Lemma score_hidden_total (best_guesses hidden : WordList) (scores : list Z) :
  length scores = length entries ->
  exists scores',
    foldl (fun acc valid_answer =>
             let! scores := acc in
             let game_for_answer :=
               addGuesses (WorldleGame_new valid_answer) best_guesses in
             score_entries entries valid_answers game_for_answer scores)
          (Done scores) hidden = Done scores'
    /\ length scores' = length scores
    /\ forall i, (i < length entries)%nat ->
         scores' !!! i =
         scores !!! i
         + foldr (fun h acc =>
                    answers_left valid_answers best_guesses h (entries !!! i)
                    + acc) 0 hidden.
Proof.
  revert scores. induction hidden as [|h rest IH]; intros scores Hlen.
  - exists scores. split; [done|]. split; [done|]. intros i _.
    cbn [foldr]. lia.
  - cbn [foldl bind].
    destruct (score_entries_total
                (addGuesses (WorldleGame_new h) best_guesses) scores Hlen)
      as [s1 [Hs1 [Hl1 Hv1]]].
    rewrite Hs1.
    destruct (IH s1) as [s2 [Hs2 [Hl2 Hv2]]]; [congruence|].
    exists s2. split; [done|]. split; [congruence|]. intros i Hi.
    rewrite Hv2, Hv1 by done. cbn [foldr]. unfold answers_left. lia.
Qed.

End ScoreLoops.

Lemma score_round_total entries valid_answers best_guesses (scores : list Z) :
  length scores = length entries ->
  exists scores',
    score_round entries valid_answers best_guesses scores = Done scores'
    /\ length scores' = length scores
    /\ forall i, (i < length entries)%nat ->
         scores' !!! i =
         scores !!! i
         + greedy_score valid_answers best_guesses (entries !!! i).
Proof. intros Hlen. by apply score_hidden_total. Qed.

(** ** Choosing the guess *)

(** The scan of [min_element_from] over [rest], the part [pre] already
    scanned having its first least element at [s]. *)
Lemma min_element_from_first_least (rest pre : list Z) (s : nat) :
  (s < length pre)%nat ->
  (forall j, (j < length pre)%nat -> pre !!! s <= pre !!! j) ->
  (forall j, (j < s)%nat -> pre !!! s < pre !!! j) ->
  let l := pre ++ rest in
  let k := min_element_from s (pre !!! s) (length pre) rest in
  (k < length l)%nat
  /\ (forall j, (j < length l)%nat -> l !!! k <= l !!! j)
  /\ (forall j, (j < k)%nat -> l !!! k < l !!! j).
Proof.
  revert pre s. induction rest as [|x rest IH]; intros pre s Hs Hle Hlt.
  - cbn [min_element_from]. rewrite app_nil_r. auto.
  - cbn [min_element_from]. cbv zeta. rewrite cons_middle, app_assoc.
    assert (Hlen : length (pre ++ [x]) = S (length pre))
      by (rewrite List.length_app; cbn; lia).
    assert (Hold : forall j, (j < length pre)%nat ->
                     (pre ++ [x]) !!! j = pre !!! j)
      by (intros j Hj; by apply lookup_total_app_l).
    assert (Hnew : (pre ++ [x]) !!! length pre = x)
      by by apply list_lookup_total_middle.
    destruct (Z.ltb_spec x (pre !!! s)) as [Hx|Hx].
    + destruct (IH (pre ++ [x]) (length pre)) as [H1 [H2 H3]].
      * lia.
      * intros j Hj. rewrite Hnew.
        destruct (decide (j = length pre)) as [->|Hne]; [by rewrite Hnew|].
        rewrite Hold by lia. specialize (Hle j). lia.
      * intros j Hj. rewrite Hnew, Hold by lia. specialize (Hle j). lia.
      * rewrite Hnew, Hlen in H1, H2, H3. auto.
    + destruct (IH (pre ++ [x]) s) as [H1 [H2 H3]].
      * lia.
      * intros j Hj. rewrite (Hold s Hs).
        destruct (decide (j = length pre)) as [->|Hne]; [by rewrite Hnew|].
        rewrite Hold by lia. apply Hle. lia.
      * intros j Hj. rewrite (Hold s Hs), Hold by lia. by apply Hlt.
      * rewrite (Hold s Hs), Hlen in H1, H2, H3. auto.
Qed.

(** [min_element] of a non-empty vector is the first index of its least
    value. *)
Lemma min_element_first_least (l : list Z) :
  l <> [] ->
  let k := min_element l in
  (k < length l)%nat
  /\ (forall j, (j < length l)%nat -> l !!! k <= l !!! j)
  /\ (forall j, (j < k)%nat -> l !!! k < l !!! j).
Proof.
  destruct l as [|x rest]; [done|]. intros _. cbn [min_element].
  apply (min_element_from_first_least rest [x] 0).
  - cbn. lia.
  - intros j Hj. cbn in Hj. assert (j = 0%nat) as -> by lia. done.
  - intros j Hj. lia.
Qed.


(** The same difference on one zero per entry, a state that the code as
    written does not reach: for the answer 'light' the trial's own game
    extended with 'light' matches one word, and the round gives 'light' the
    score 5, one for 'light' as hidden answer and two for each of the
    others. *)
Lemma score_not_branch_count :
  let entries := [light; might; fight] in
  let t := seed_trial entries light 3 in
  valid_answers t = entries
  /\ score_round entries (valid_answers t) (best_guesses t) [0; 0; 0]
     = Done [5; 5; 5]
  /\ branch_count (trial_game t) (valid_answers t) light = 1.
Proof. vm_compute. done. Qed.


(** ** The scores vector *)

Lemma score_entries_stays_out_of_bounds (entries valid_answers : WordList)
    game idx :
  foldl (fun acc i =>
           let! scores := acc in
           let game_with_guess := fst (getCopyWithGuess game (entries !!! i)) in
           add_score scores i (count_if (game_matches game_with_guess) valid_answers))
        OutOfBounds idx = OutOfBounds.
Proof. induction idx as [|i rest IH]; [done|]. cbn [foldl bind]. apply IH. Qed.

Lemma score_round_stays_out_of_bounds (entries valid_answers : WordList)
    best_guesses hidden :
  foldl (fun acc valid_answer =>
           let! scores := acc in
           let game_for_answer :=
             addGuesses (WorldleGame_new valid_answer) best_guesses in
           score_entries entries valid_answers game_for_answer scores)
        OutOfBounds hidden = OutOfBounds.
Proof. induction hidden as [|h rest IH]; [done|]. cbn [foldl bind]. apply IH. Qed.

(** A round entered with an empty [scores] writes outside it at once. *)
Lemma score_round_empty_scores (entries valid_answers : WordList) best_guesses :
  entries <> [] -> valid_answers <> [] ->
  score_round entries valid_answers best_guesses [] = OutOfBounds.
Proof.
  intros He Hv. unfold score_round.
  destruct valid_answers as [|h rest]; [done|]. cbn [foldl bind].
  replace (score_entries entries (h :: rest)
             (addGuesses (WorldleGame_new h) best_guesses) [])
    with (@OutOfBounds (list Z)).
  - apply score_round_stays_out_of_bounds.
  - unfold score_entries. destruct entries as [|e es]; [done|].
    cbn [length seq foldl bind]. unfold add_score at 2.
    rewrite decide_False by (cbn; lia).
    symmetry. apply score_entries_stays_out_of_bounds.
Qed.

(** C4 (the code breaks it).  Whenever [runGreedyTrial] enters its loop, that
    is with more than one feasible answer after the seed guess, the first
    [scores[i] +=] is outside the vector, which was declared empty and never
    sized. *)
Theorem runGreedyTrial_scores_out_of_bounds (fuel : nat) (entries : WordList)
    (answer_idx num_answers : nat) :
  (answer_idx < length entries)%nat ->
  (num_answers <= length entries)%nat ->
  (1 < length (valid_answers
                 (seed_trial entries (entries !!! answer_idx) num_answers)))%nat ->
  scores (seed_trial entries (entries !!! answer_idx) num_answers) = []
  /\ runGreedyTrial (S fuel) entries answer_idx num_answers = OutOfBounds.
Proof.
  intros Hidx Hnum Hsize. split; [done|].
  unfold runGreedyTrial. rewrite !decide_True by done.
  cbn [greedy_loop].
  replace (1 <? length _)%nat with true by (symmetry; by apply Nat.ltb_lt).
  unfold greedy_round. rewrite score_round_empty_scores; [done| |].
  - intros ->. cbn in Hidx. lia.
  - intros E. rewrite E in Hsize. cbn in Hsize. lia.
Qed.

(** ** The end of a trial *)



Lemma conclude_done answer t n :
  conclude answer t = Done n <-> valid_answers t = [answer] /\ trial_count t = n.
Proof.
  unfold conclude. destruct (valid_answers t) as [|front [|? ?]].
  - split; [done|]. by intros [? _].
  - case_decide as Hf.
    + subst front. split; [by intros [= ->]|]. by intros [_ ->].
    + split; [done|]. intros [[= ?] _]. done.
  - split; [done|]. by intros [? _].
Qed.



(** ** The word codec *)

Lemma string_get_lt (str : string) i c :
  String.get i str = Some c -> (i < String.length str)%nat.
Proof.
  revert i. induction str as [|a str IH]; intros i; cbn; [done|].
  destruct i as [|i]; [lia|]. intros H%IH. lia.
Qed.

(** C10, as stated, fails: the five symbols of "ROATE" are no letter codes of
    the alphabet, and [fromString] returns a word of them. *)
Lemma fromString_accepts_other_symbols :
  fromString true "ROATE" = Done [-15; -18; -32; -13; -28]
  /\ fromString false "ROATE" = Done [-15; -18; -32; -13; -28]
  /\ forallb (fun l => (0 <=? l) && (l <? 26)) [-15; -18; -32; -13; -28] = false.
Proof. vm_compute. done. Qed.

(** C10, amended.  [fromString] fails its assertion exactly when the string
    does not have [kNumLetters] symbols; otherwise it returns the word whose
    letter at each position is the code of the symbol there minus the code of
    'a', whether or not that is a letter of the alphabet. *)
Theorem fromString_checks_length_only (char_signed : bool) (str : string) :
  (fromString char_signed str = AssertionFailed
   <-> String.length str <> kNumLetters)
  /\ (String.length str = kNumLetters ->
      exists word,
        fromString char_signed str = Done word
        /\ length word = kNumLetters
        /\ forall i c, String.get i str = Some c ->
             word !!! i = char_value char_signed c - 97).
Proof.
  unfold fromString. split.
  - case_decide; split; done.
  - intros Hlen. rewrite decide_True by done. eexists. split; [done|].
    split; [by rewrite length_fmap, length_seq|].
    intros i c Hc.
    assert (Hi : (i < kNumLetters)%nat)
      by (rewrite <- Hlen; by eapply string_get_lt).
    rewrite (@list_lookup_total_fmap nat Z _ _ _)
      by by rewrite length_seq.
    rewrite lookup_total_seq_lt by done. cbn [Nat.add]. rewrite Hc.
    cbn [default]. f_equal. by destruct char_signed.
Qed.

(** * Further properties *)

(** ** Fresh clues *)

Lemma position_rejects_new (w : Word) i :
  (i < kNumLetters)%nat -> position_rejects Clues_new w i = false.
Proof.
  intros Hi. unfold position_rejects. cbn [Clues_new match_ wrong_].
  rewrite !lookup_total_replicate_2 by done.
  by rewrite Z.land_0_r.
Qed.

(** X1.  A game that has seen no guess matches every word, whatever the
    answer. *)
Theorem fresh_game_matches_every_word (answer w : Word) :
  game_matches (WorldleGame_new answer) w = true.
Proof.
  unfold game_matches, matches. cbn [WorldleGame_new clues].
  rewrite matches_loop_unfold.
  replace (existsb (position_rejects Clues_new w) (seq 0 kNumLetters))
    with false.
  - cbn [Clues_new in_answer_]. by rewrite Z.land_0_l.
  - symmetry. apply existsb_positions_false. apply position_rejects_new.
Qed.

(** ** The order of the guesses *)

Lemma foldl_lor_swap {A : Type} (f g : A -> Z) (l : list A) (acc : Z) :
  foldl (fun a i => Z.lor a (g i)) (foldl (fun a i => Z.lor a (f i)) acc l) l
  = foldl (fun a i => Z.lor a (f i)) (foldl (fun a i => Z.lor a (g i)) acc l) l.
Proof.
  apply Z.bits_inj'. intros x _. rewrite !testbit_foldl_lor.
  destruct (Z.testbit acc x), (existsb _ l), (existsb _ l); done.
Qed.

Lemma addGuess_fields (game : WorldleGame) (guess : Word) :
  answer_ (addGuess game guess) = answer_ game
  /\ answer_bits_ (addGuess game guess) = answer_bits_ game
  /\ length (match_ (clues (addGuess game guess))) = length (match_ (clues game))
  /\ length (wrong_ (clues (addGuess game guess))) = length (wrong_ (clues game)).
Proof.
  unfold addGuess.
  destruct (addGuess_loop_answer guess (seq 0 kNumLetters) game) as [-> ->].
  destruct (addGuess_loop_length guess (seq 0 kNumLetters) game) as [-> ->].
  done.
Qed.

Lemma addGuess_match_closed (game : WorldleGame) (guess : Word) j :
  (j < length (match_ (clues game)))%nat ->
  match_ (clues (addGuess game guess)) !!! j =
  if existsb (fun i => (i =? j)%nat && (guess !!! i =? answer_ game !!! i))
             (seq 0 kNumLetters)
  then answer_ game !!! j else match_ (clues game) !!! j.
Proof. apply addGuess_loop_match. Qed.

Lemma addGuess_wrong_closed (game : WorldleGame) (guess : Word) j :
  (j < length (wrong_ (clues game)))%nat ->
  wrong_ (clues (addGuess game guess)) !!! j =
  foldl (fun acc i =>
           Z.lor acc (forbidden_by (answer_ game) (answer_bits_ game) guess j i))
        (wrong_ (clues game) !!! j) (seq 0 kNumLetters).
Proof. apply addGuess_loop_wrong. Qed.

Lemma addGuess_in_answer_closed (game : WorldleGame) (guess : Word) :
  in_answer_ (clues (addGuess game guess)) =
  foldl (fun acc i =>
           Z.lor acc (Z.land (letter_bit (guess !!! i)) (answer_bits_ game)))
        (in_answer_ (clues game)) (seq 0 kNumLetters).
Proof. apply addGuess_loop_in_answer. Qed.

(** Two guesses can be applied in either order. *)
Lemma addGuess_comm (game : WorldleGame) (a b : Word) :
  addGuess (addGuess game a) b = addGuess (addGuess game b) a.
Proof.
  destruct (addGuess_fields game a) as (Ha1 & Ha2 & Ha3 & Ha4).
  destruct (addGuess_fields game b) as (Hb1 & Hb2 & Hb3 & Hb4).
  destruct (addGuess_fields (addGuess game a) b) as (Hab1 & Hab2 & Hab3 & Hab4).
  destruct (addGuess_fields (addGuess game b) a) as (Hba1 & Hba2 & Hba3 & Hba4).
  apply WorldleGame_eq; [| | |congruence..].
  - apply list_eq_total; [congruence|]. intros j Hj.
    rewrite Hab3, Ha3 in Hj.
    rewrite !addGuess_match_closed by congruence.
    rewrite Ha1, Hb1. by repeat case_match.
  - apply list_eq_total; [congruence|]. intros j Hj.
    rewrite Hab4, Ha4 in Hj.
    rewrite !addGuess_wrong_closed by congruence.
    rewrite Ha1, Ha2, Hb1, Hb2. apply foldl_lor_swap.
  - rewrite !addGuess_in_answer_closed. rewrite Ha2, Hb2.
    apply (foldl_lor_swap
             (fun i => Z.land (letter_bit (a !!! i)) (answer_bits_ game))
             (fun i => Z.land (letter_bit (b !!! i)) (answer_bits_ game))).
Qed.

(** X2.  The game reached by [addGuesses] does not depend on the order of
    the guesses: two sequences that are permutations of each other lead any
    game to the same state. *)
Theorem addGuesses_permutation (game : WorldleGame) (l1 l2 : WordList) :
  l1 ≡ₚ l2 -> addGuesses game l1 = addGuesses game l2.
Proof.
  intros H. revert game.
  induction H as [|x l l' _ IH|x y l|l l' l'' _ IH1 _ IH2]; intros game.
  - done.
  - cbn [addGuesses foldl]. apply IH.
  - cbn [addGuesses foldl]. by rewrite addGuess_comm.
  - by rewrite IH1.
Qed.

(** ** Sessions and the words they match *)

Lemma session_snoc (answer : Word) (guesses : WordList) (guess : Word) :
  session answer (guesses ++ [guess]) = addGuess (session answer guesses) guess.
Proof. unfold session, addGuesses. by rewrite foldl_app. Qed.

Lemma session_inv_session (answer : Word) (guesses : WordList) :
  word_ok answer = true -> forallb word_ok guesses = true ->
  session_inv answer (session answer guesses).
Proof. apply session_inv_reached. Qed.

Lemma letter_ok_known l : letter_ok l = true -> l <> kUnknownLetter.
Proof. intros H%letter_ok_range. unfold kUnknownLetter. lia. Qed.

Lemma word_ok_eq (w1 w2 : Word) :
  word_ok w1 = true -> word_ok w2 = true ->
  (forall i, (i < kNumLetters)%nat -> w1 !!! i = w2 !!! i) -> w1 = w2.
Proof.
  intros H1%word_ok_length H2%word_ok_length H.
  apply list_eq_total; [congruence|]. intros j Hj. apply H. by rewrite <- H1.
Qed.

Lemma word_ok_differ (w1 w2 : Word) :
  word_ok w1 = true -> word_ok w2 = true -> w1 <> w2 ->
  exists i, (i < kNumLetters)%nat /\ w1 !!! i <> w2 !!! i.
Proof.
  intros H1 H2 Hne.
  destruct (existsb (fun i => negb (w1 !!! i =? w2 !!! i)) (seq 0 kNumLetters))
    eqn:E.
  - apply existsb_positions in E as [i [Hi Hd]]. exists i. split; [done|].
    apply negb_true_iff in Hd. by apply Z.eqb_neq.
  - destruct Hne. apply word_ok_eq; [done..|]. intros i Hi.
    pose proof (proj1 (existsb_positions_false _ _) E i Hi) as Hd.
    apply negb_false_iff in Hd. by apply Z.eqb_eq.
Qed.

Section Narrowing.

Variables (answer guess : Word) (game : WorldleGame).
Hypothesis Hanswer : word_ok answer = true.
Hypothesis Hguess : word_ok guess = true.
Hypothesis Hinv : session_inv answer game.

(** A guess never brings back a word that the clues had excluded. *)
Lemma addGuess_narrows (w : Word) :
  word_ok w = true ->
  game_matches (addGuess game guess) w = true -> game_matches game w = true.
Proof.
  intros Hw. unfold game_matches. rewrite !matches_true_iff by done.
  intros [Hpos Hsub]. split.
  - intros i Hi. destruct (Hpos i Hi) as [Hm Hb]. split.
    + rewrite (addGuess_match answer) in Hm by done.
      destruct (Z.eqb_spec (guess !!! i) (answer !!! i)) as [Heq|Hne]; [|done].
      destruct (inv_match _ _ Hinv i Hi) as [?|Hset]; [by left|].
      right. rewrite Hset. destruct Hm as [Hm|Hm]; [|congruence].
      by destruct (letter_ok_known _ (word_ok_lookup guess i Hguess)).
    + apply not_true_iff_false. intros H. apply not_true_iff_false in Hb.
      apply Hb. apply (addGuess_wrong answer); auto.
  - intros x Hx. apply Hsub. apply (addGuess_in_answer answer); auto.
Qed.

(** A word that repeats the guess where the guess is wrong is excluded. *)
Lemma addGuess_rejects (w : Word) i :
  word_ok w = true -> (i < kNumLetters)%nat ->
  w !!! i = guess !!! i -> guess !!! i <> answer !!! i ->
  game_matches (addGuess game guess) w = false.
Proof.
  intros Hw Hi Hsame Hwrong. apply not_true_iff_false.
  unfold game_matches. rewrite matches_true_iff by done. intros [Hpos _].
  destruct (Hpos i Hi) as [_ Hb]. apply not_true_iff_false in Hb. apply Hb.
  apply (addGuess_wrong answer); [done..|]. right. rewrite Hsame.
  destruct (decide (guess !!! i ∈ answer)).
  - by left.
  - right. split; [|done]. apply word_ok_elem; eauto.
Qed.

End Narrowing.

(** X3.  Further guesses only narrow: a word matched by the session of an
    answer after the guesses [guesses ++ more] was matched after [guesses]
    already. *)
Theorem more_guesses_narrow (answer : Word) (guesses more : WordList)
    (w : Word) :
  word_ok answer = true -> forallb word_ok guesses = true ->
  forallb word_ok more = true -> word_ok w = true ->
  game_matches (session answer (guesses ++ more)) w = true ->
  game_matches (session answer guesses) w = true.
Proof.
  intros Ha Hgs Hmore Hw. revert guesses Hgs.
  induction more as [|g more IH]; intros guesses Hgs.
  - by rewrite app_nil_r.
  - cbn [forallb] in Hmore. apply andb_true_iff in Hmore as [Hg Hmore].
    rewrite cons_middle, app_assoc. intros H%IH.
    + rewrite session_snoc in H.
      apply (addGuess_narrows answer g) in H; auto.
      by apply session_inv_session.
    + done.
    + rewrite forallb_app, Hgs. cbn. by rewrite Hg.
Qed.

Lemma addGuess_answer_matches_only (answer : Word) (game : WorldleGame)
    (w : Word) :
  word_ok answer = true -> word_ok w = true -> session_inv answer game ->
  game_matches (addGuess game answer) w = true -> w = answer.
Proof.
  intros Ha Hw Hinv. unfold game_matches. rewrite matches_true_iff by done.
  intros [Hpos _]. apply word_ok_eq; [done..|]. intros i Hi.
  destruct (Hpos i Hi) as [Hm _].
  rewrite (addGuess_match answer) in Hm by done.
  rewrite Z.eqb_refl in Hm. destruct Hm as [Hm|Hm]; [|done].
  by destruct (letter_ok_known _ (word_ok_lookup answer i Ha)).
Qed.

(** X4.  Once the answer itself has been guessed, the session matches the
    answer and no other word. *)
Theorem only_answer_matches_after_guessing_it (answer : Word)
    (guesses : WordList) (w : Word) :
  word_ok answer = true -> forallb word_ok guesses = true ->
  word_ok w = true ->
  game_matches (addGuess (session answer guesses) answer) w = true
  <-> w = answer.
Proof.
  intros Ha Hgs Hw.
  pose proof (session_inv_session answer guesses Ha Hgs) as Hinv.
  split.
  - by apply addGuess_answer_matches_only.
  - intros ->. apply session_inv_matches; [done|].
    by apply session_inv_addGuess.
Qed.

(** X5.  A guess that is not the answer is itself excluded by the clues it
    produces. *)
Theorem wrong_guess_is_rejected (answer : Word) (guesses : WordList)
    (guess : Word) :
  word_ok answer = true -> forallb word_ok guesses = true ->
  word_ok guess = true -> guess <> answer ->
  game_matches (addGuess (session answer guesses) guess) guess = false.
Proof.
  intros Ha Hgs Hg Hne.
  destruct (word_ok_differ guess answer Hg Ha Hne) as [i [Hi Hd]].
  apply (addGuess_rejects answer guess _ Ha Hg
           (session_inv_session answer guesses Ha Hgs) guess i); done.
Qed.

(** ** Feasible words produce the same clues *)

Lemma Clues_eq (a b : Clues) :
  match_ a = match_ b -> wrong_ a = wrong_ b -> in_answer_ a = in_answer_ b ->
  a = b.
Proof. destruct a, b. cbn. by intros -> -> ->. Qed.

Lemma testbit_eq_of_iff (a b : bool) : (a = true <-> b = true) -> a = b.
Proof. destruct a, b; intros [H1 H2]; auto; symmetry; auto. Qed.

(** One more guess keeps the clues of two sessions equal when the word
    behind the second is still matched by the first. *)
Lemma addGuess_agree (answer hidden guess : Word) (game_a game_h : WorldleGame) :
  word_ok answer = true -> word_ok hidden = true -> word_ok guess = true ->
  session_inv answer game_a -> session_inv hidden game_h ->
  clues game_h = clues game_a ->
  game_matches (addGuess game_a guess) hidden = true ->
  clues (addGuess game_h guess) = clues (addGuess game_a guess).
Proof.
  intros Ha Hh Hg Hinv_a Hinv_h Hclues.
  unfold game_matches. rewrite matches_true_iff by done. intros [Hpos Hsub].
  pose proof (session_inv_addGuess answer guess game_a Ha Hg Hinv_a) as Hinv_a'.
  pose proof (session_inv_addGuess hidden guess game_h Hh Hg Hinv_h) as Hinv_h'.
  assert (Hletters : forall x, x ∈ guess -> x ∈ answer <-> x ∈ hidden).
  { intros x Hx. split.
    - intros Hxa. apply Hsub. apply (addGuess_in_answer answer); auto.
    - intros Hxh. destruct (decide (x ∈ answer)) as [|Hout]; [done|].
      apply word_ok_elem in Hxh as [j [Hj <-]]; [|done].
      destruct (Hpos j Hj) as [_ Hb]. apply not_true_iff_false in Hb.
      destruct Hb. apply (addGuess_wrong answer); auto. }
  assert (Hhits : forall j, (j < kNumLetters)%nat ->
            guess !!! j = answer !!! j <-> guess !!! j = hidden !!! j).
  { intros j Hj. destruct (Hpos j Hj) as [Hm Hb]. split.
    - intros Heq. rewrite (addGuess_match answer) in Hm by done.
      rewrite (proj2 (Z.eqb_eq _ _) Heq) in Hm.
      destruct Hm as [Hm|Hm]; [|done].
      by destruct (letter_ok_known _ (word_ok_lookup guess j Hg)).
    - intros Heq. destruct (decide (guess !!! j = answer !!! j)) as [|Hne];
        [done|].
      apply not_true_iff_false in Hb. destruct Hb.
      apply (addGuess_wrong answer); [done..|]. right. rewrite <- Heq.
      destruct (decide (guess !!! j ∈ answer)).
      + by left.
      + right. split; [|done]. apply word_ok_elem; eauto. }
  apply Clues_eq.
  - apply list_eq_total.
    + by rewrite (inv_match_length _ _ Hinv_h'), (inv_match_length _ _ Hinv_a').
    + intros j Hj. rewrite (inv_match_length _ _ Hinv_h') in Hj.
      rewrite (addGuess_match hidden), (addGuess_match answer) by done.
      rewrite Hclues.
      destruct (Z.eqb_spec (guess !!! j) (hidden !!! j)) as [E1|E1],
               (Z.eqb_spec (guess !!! j) (answer !!! j)) as [E2|E2];
        try done.
      * destruct E2. by apply Hhits.
      * destruct E1. by apply Hhits.
  - apply list_eq_total.
    + by rewrite (inv_wrong_length _ _ Hinv_h'), (inv_wrong_length _ _ Hinv_a').
    + intros j Hj. rewrite (inv_wrong_length _ _ Hinv_h') in Hj.
      apply Z.bits_inj. intros x. apply testbit_eq_of_iff.
      rewrite (addGuess_wrong hidden), (addGuess_wrong answer) by done.
      rewrite Hclues.
      assert (Hgj : guess !!! j ∈ guess) by (apply word_ok_elem; eauto).
      split; (intros [H|[[-> [H1 H2]]|[H1 H2]]]; [by left|right; left|right; right]).
      * split; [done|]. rewrite Hhits by done. split; [done|]. by apply Hletters.
      * split; [done|]. by rewrite Hletters.
      * split; [done|]. rewrite <- Hhits by done. split; [done|].
        by apply Hletters.
      * split; [done|]. by rewrite <- Hletters.
  - apply Z.bits_inj. intros x. apply testbit_eq_of_iff.
    rewrite (addGuess_in_answer hidden), (addGuess_in_answer answer) by done.
    rewrite Hclues.
    split; (intros [H|[H1 H2]]; [by left|right]).
    + split; [done|]. by apply Hletters.
    + split; [done|]. by apply Hletters.
Qed.

Lemma session_clues_agree (answer hidden : Word) (guesses : WordList) :
  word_ok answer = true -> word_ok hidden = true ->
  forallb word_ok guesses = true ->
  game_matches (session answer guesses) hidden = true ->
  clues (session hidden guesses) = clues (session answer guesses).
Proof.
  intros Ha Hh. induction guesses as [|g gs IH] using rev_ind; intros Hgs Hm.
  - done.
  - rewrite forallb_app in Hgs. apply andb_true_iff in Hgs as [Hgs Hg].
    cbn in Hg. rewrite andb_true_r in Hg.
    rewrite !session_snoc. rewrite session_snoc in Hm.
    pose proof (session_inv_session answer gs Ha Hgs) as Hinv_a.
    pose proof (session_inv_session hidden gs Hh Hgs) as Hinv_h.
    apply (addGuess_agree answer hidden g); try done.
    apply IH; [done|].
    by apply (addGuess_narrows answer g (session answer gs)).
Qed.

(** X6.  A word that the session of an answer still matches would, as the
    answer, have produced the very same clues from the same guesses; its
    session matches exactly the same words. *)
Theorem feasible_word_has_same_clues (answer hidden : Word)
    (guesses : WordList) :
  word_ok answer = true -> word_ok hidden = true ->
  forallb word_ok guesses = true ->
  game_matches (session answer guesses) hidden = true ->
  clues (session hidden guesses) = clues (session answer guesses)
  /\ forall w, game_matches (session hidden guesses) w
               = game_matches (session answer guesses) w.
Proof.
  intros Ha Hh Hgs Hm.
  pose proof (session_clues_agree answer hidden guesses Ha Hh Hgs Hm) as E.
  split; [exact E|]. intros w. unfold game_matches. by rewrite E.
Qed.

(** ** Counting and summing *)

Lemma filter_length_le {A : Type} (p : A -> bool) (l : list A) :
  (length (List.filter p l) <= length l)%nat.
Proof. induction l as [|a l IH]; cbn; [lia|]. destruct (p a); cbn; lia. Qed.

Lemma count_if_range {A : Type} (p : A -> bool) (l : list A) :
  0 <= count_if p l <= Z.of_nat (length l).
Proof. unfold count_if. pose proof (filter_length_le p l). lia. Qed.

Lemma count_if_all {A : Type} (p : A -> bool) (l : list A) :
  (forall a, a ∈ l -> p a = true) -> count_if p l = Z.of_nat (length l).
Proof.
  intros H. unfold count_if. rewrite forallb_filter_id; [done|].
  apply forallb_forall. intros a Ha. apply H. by apply list_elem_of_In.
Qed.

Lemma count_if_at_most_one {A : Type} (p : A -> bool) (l : list A) (x : A) :
  NoDup l -> (forall a, a ∈ l -> p a = true -> a = x) -> count_if p l <= 1.
Proof.
  unfold count_if. intros Hnd Hx.
  assert (H : (length (List.filter p l) <= 1)%nat); [|lia].
  induction Hnd as [|a l Hnotin Hnd IH]; cbn; [lia|].
  destruct (p a) eqn:Ea.
  - assert (a = x) as -> by (apply Hx; [left|done]).
    assert (List.filter p l = []) as ->; [|cbn; lia].
    destruct (List.filter p l) as [|b rest] eqn:Ef; [done|].
    assert (Hb : In b (List.filter p l)) by (rewrite Ef; by left).
    apply filter_In in Hb as [Hb Hp]. apply list_elem_of_In in Hb.
    assert (b = x) as -> by (apply Hx; [by right|done]). done.
  - apply IH. intros b Hb. apply Hx. by right.
Qed.

Lemma count_if_at_least_one {A : Type} (p : A -> bool) (l : list A) (x : A) :
  x ∈ l -> p x = true -> 1 <= count_if p l.
Proof.
  intros Hx Hp. unfold count_if.
  assert (Hin : In x (List.filter p l))
    by (apply filter_In; split; [by apply list_elem_of_In|done]).
  destruct (List.filter p l); [done|]. cbn [length]. lia.
Qed.

Lemma sum_constant {A : Type} (f : A -> Z) (l : list A) (m : Z) :
  (forall h, h ∈ l -> f h = m) ->
  foldr (fun h acc => f h + acc) 0 l = Z.of_nat (length l) * m.
Proof.
  induction l as [|a l IH]; intros H; cbn [foldr length]; [lia|].
  rewrite IH by (intros h Hh; apply H; by right).
  rewrite (H a) by by left. lia.
Qed.

Lemma sum_between {A : Type} (f : A -> Z) (l : list A) (lo hi : Z) :
  (forall h, h ∈ l -> lo <= f h <= hi) ->
  Z.of_nat (length l) * lo <= foldr (fun h acc => f h + acc) 0 l
  <= Z.of_nat (length l) * hi.
Proof.
  induction l as [|a l IH]; intros H; cbn [foldr length]; [lia|].
  pose proof (H a ltac:(by left)).
  pose proof (IH ltac:(intros h Hh; apply H; by right)). lia.
Qed.

Lemma sum_with_small_term {A : Type} (f : A -> Z) (l : list A) (x : A)
    (small hi : Z) :
  (forall h, h ∈ l -> f h <= hi) -> x ∈ l -> f x <= small -> small <= hi ->
  foldr (fun h acc => f h + acc) 0 l
  <= (Z.of_nat (length l) - 1) * hi + small.
Proof.
  intros Hhi Hx Hsmall Hle. induction l as [|a l IH]; [by inversion Hx|].
  cbn [foldr length].
  assert (Hrest : foldr (fun h acc => f h + acc) 0 l <= Z.of_nat (length l) * hi).
  { clear IH Hx. induction l as [|b l IH]; cbn [foldr length]; [lia|].
    pose proof (Hhi b ltac:(right; left)).
    pose proof (IH ltac:(intros h Hh; apply Hhi;
                          inversion Hh; subst; [left|right; by right])).
    lia. }
  apply elem_of_cons in Hx as [->|Hx].
  - lia.
  - pose proof (Hhi a ltac:(by left)).
    pose proof (IH ltac:(intros h Hh; apply Hhi; by right) Hx). lia.
Qed.

Lemma NoDup_list_filter {A : Type} (p : A -> bool) (l : list A) :
  NoDup l -> NoDup (List.filter p l).
Proof.
  rewrite !NoDup_ListNoDup. apply List.NoDup_filter.
Qed.

Lemma elem_of_list_filter_bool {A : Type} (p : A -> bool) (l : list A) x :
  x ∈ List.filter p l <-> x ∈ l /\ p x = true.
Proof. rewrite !list_elem_of_In. apply filter_In. Qed.

Lemma words_lookup_ok (entries : WordList) i :
  forallb word_ok entries = true -> (i < length entries)%nat ->
  word_ok (entries !!! i) = true.
Proof.
  intros H Hi. rewrite forallb_forall in H. apply H.
  apply list_elem_of_In. by apply list_elem_of_lookup_total_2.
Qed.

Lemma words_elem_ok (entries : WordList) w :
  forallb word_ok entries = true -> w ∈ entries -> word_ok w = true.
Proof.
  intros H Hw. rewrite forallb_forall in H. apply H. by apply list_elem_of_In.
Qed.

(** ** Rounds on a sized scores vector *)

Lemma answers_left_session (valid best : WordList) (hidden guess : Word) :
  answers_left valid best hidden guess
  = count_if (game_matches (session hidden (best ++ [guess]))) valid.
Proof. unfold answers_left. by rewrite session_snoc. Qed.

Section GreedyProgress.

Variables (entries : WordList) (answer : Word).
Hypothesis Hentries : forallb word_ok entries = true.
Hypothesis Hanswer : word_ok answer = true.

(** A round started in a state that satisfies [trial_inv] ends, keeps the
    invariant and leaves fewer feasible answers. *)
Lemma greedy_round_progress (t : trial) :
  trial_inv entries answer t -> (1 < length (valid_answers t))%nat ->
  exists t' k,
    greedy_round entries t = Done t'
    /\ (k < length entries)%nat
    /\ best_guesses t' = best_guesses t ++ [entries !!! k]
    /\ trial_count t' = trial_count t + 1
    /\ trial_inv entries answer t'
    /\ (length (valid_answers t') < length (valid_answers t))%nat.
Proof.
  intros Hinv Hsize.
  destruct Hinv as [Hgame Hbest Hscores Hsub Hnodup Hin].
  set (V := valid_answers t) in *. set (bg := best_guesses t) in *.
  assert (HVok : forall w, w ∈ V -> word_ok w = true)
    by (intros w Hw; apply (words_elem_ok entries); [done|by apply Hsub]).
  assert (Hlen : length (scores t) = length entries)
    by (rewrite Hscores; apply length_replicate).
  destruct (score_round_total entries V bg (scores t) Hlen)
    as [s [Hs [Hl Hv]]].
  assert (Hscore : forall i, (i < length entries)%nat ->
                     s !!! i = greedy_score V bg (entries !!! i)).
  { intros i Hi. rewrite Hv by done. rewrite Hscores.
    rewrite lookup_total_replicate_2 by done. lia. }
  destruct (list_elem_of_lookup_total_1 entries answer (Hsub _ Hin))
    as [i0 [Hi0 Hanswer_at]].
  assert (Hs_ne : s <> []).
  { intros ->. cbn in Hl. lia. }
  destruct (min_element_first_least s Hs_ne) as [Hk [Hle _]].
  rewrite Hl, Hlen in Hk.
  set (k := min_element s) in *. set (g := entries !!! k).
  assert (Hg : word_ok g = true) by by apply words_lookup_ok.
  assert (Hbest' : forallb word_ok (bg ++ [g]) = true)
    by (rewrite forallb_app, Hbest; cbn; by rewrite Hg).
  assert (Hgame' : addGuess (trial_game t) g = session answer (bg ++ [g]))
    by by rewrite session_snoc, Hgame.
  eexists. exists k. split.
  { unfold greedy_round. fold V bg. rewrite Hs. cbn [bind]. fold k.
    rewrite decide_True by done. done. }
  cbn [best_guesses trial_count valid_answers]. fold V bg g.
  split; [done|]. split; [done|]. split; [done|]. split.
  - split; cbn [trial_game best_guesses scores valid_answers].
    + done.
    + done.
    + f_equal. congruence.
    + intros w [Hw _]%elem_of_list_filter_bool. by apply Hsub.
    + by apply NoDup_list_filter.
    + apply elem_of_list_filter_bool. split; [done|].
      rewrite Hgame'. apply session_inv_matches; [done|].
      by apply session_inv_session.
  - pose proof (filter_length_le (game_matches (addGuess (trial_game t) g)) V)
      as Hfl.
    destruct (decide (length (List.filter
                (game_matches (addGuess (trial_game t) g)) V) < length V)%nat)
      as [|Hnot]; [done|].
    exfalso.
    assert (Hfull : length (List.filter
              (game_matches (addGuess (trial_game t) g)) V) = length V) by lia.
    apply filter_length_forallb in Hfull. rewrite forallb_forall in Hfull.
    assert (Hall : forall h, h ∈ V ->
              game_matches (session answer (bg ++ [g])) h = true).
    { intros h Hh. rewrite <- Hgame'. apply Hfull. by apply list_elem_of_In. }
    assert (Hstar : greedy_score V bg g
                    = Z.of_nat (length V) * Z.of_nat (length V)).
    { unfold greedy_score. apply sum_constant. intros h Hh.
      rewrite answers_left_session. apply count_if_all. intros a Ha.
      unfold game_matches.
      rewrite (session_clues_agree answer h (bg ++ [g])); auto.
      by apply Hall. }
    assert (Hans : greedy_score V bg answer
                   <= (Z.of_nat (length V) - 1) * Z.of_nat (length V) + 1).
    { unfold greedy_score.
      apply (sum_with_small_term _ V answer); [|done| |lia].
      - intros h Hh. apply count_if_range.
      - rewrite answers_left_session, session_snoc.
        apply (count_if_at_most_one _ V answer); [done|].
        intros a Ha Hm.
        apply (addGuess_answer_matches_only answer (session answer bg));
          auto.
        by apply session_inv_session. }
    specialize (Hle i0). rewrite Hl, Hlen in Hle. specialize (Hle Hi0).
    rewrite !Hscore in Hle by done. fold g in Hle.
    rewrite Hanswer_at in Hle. nia.
Qed.

(** With enough fuel the loop ends on the answer alone. *)
Lemma greedy_loop_reaches_answer (n : nat) :
  forall (t : trial) (fuel : nat),
    trial_inv entries answer t ->
    (length (valid_answers t) <= n)%nat -> (n <= fuel)%nat ->
    exists t',
      greedy_loop fuel entries t = Done t'
      /\ valid_answers t' = [answer]
      /\ trial_count t <= trial_count t'
         <= trial_count t + Z.of_nat (length (valid_answers t)) - 1.
Proof.
  induction n as [|n IH]; intros t fuel Hinv Hn Hfuel.
  - pose proof (tinv_answer _ _ _ Hinv) as Hin.
    destruct (valid_answers t); [by inversion Hin|cbn in Hn; lia].
  - destruct (decide (1 < length (valid_answers t))%nat) as [Hsize|Hsize].
    + destruct fuel as [|fuel]; [lia|]. cbn [greedy_loop].
      replace (1 <? length (valid_answers t))%nat with true
        by (symmetry; by apply Nat.ltb_lt).
      destruct (greedy_round_progress t Hinv Hsize)
        as (t1 & k & Hround & _ & _ & Hcount & Hinv1 & Hless).
      rewrite Hround. cbn [bind].
      destruct (IH t1 fuel Hinv1) as (t' & Hloop & Hv & Hc); [lia..|].
      exists t'. split; [done|]. split; [done|]. lia.
    + exists t.
      assert (Hv : valid_answers t = [answer]).
      { pose proof (tinv_answer _ _ _ Hinv) as Hin.
        destruct (valid_answers t) as [|a [|b rest]]; cbn in Hsize.
        - by inversion Hin.
        - apply list_elem_of_singleton in Hin. by subst.
        - lia. }
      split; [|split; [done|rewrite Hv; cbn; lia]].
      destruct fuel; cbn [greedy_loop]; rewrite Hv; done.
Qed.

End GreedyProgress.

Lemma trial_inv_sized_seed (entries : WordList) (answer_idx num_answers : nat) :
  forallb word_ok entries = true -> NoDup (take num_answers entries) ->
  (answer_idx < num_answers)%nat -> (num_answers <= length entries)%nat ->
  trial_inv entries (entries !!! answer_idx)
    (sized_seed_trial entries (entries !!! answer_idx) num_answers).
Proof.
  intros Hentries Hnodup Hidx Hnum.
  assert (Ha : word_ok (entries !!! answer_idx) = true)
    by (apply words_lookup_ok; [done|lia]).
  split; cbn [sized_seed_trial seed_trial trial_game best_guesses scores
              valid_answers].
  - done.
  - done.
  - done.
  - intros w [Hw _]%elem_of_list_filter_bool.
    by apply (subseteq_take num_answers entries).
  - by apply NoDup_list_filter.
  - apply elem_of_list_filter_bool. split.
    + rewrite <- (lookup_total_take_lt entries num_answers answer_idx) by done.
      apply list_elem_of_lookup_total_2. rewrite length_take. lia.
    + apply (session_inv_matches (entries !!! answer_idx)); [done|].
      by apply (session_inv_session _ [first_guess]).
Qed.

(** X7.  In a trial whose [scores] holds one zero per entry, with a
    dictionary of well-formed words, a round over more than one feasible
    answer ends, eliminates at least one of them, keeps the answer among
    them and moves to a state of the same kind. *)
Theorem greedy_round_eliminates (entries : WordList) (answer : Word)
    (t : trial) :
  forallb word_ok entries = true -> word_ok answer = true ->
  trial_inv entries answer t -> (1 < length (valid_answers t))%nat ->
  exists t',
    greedy_round entries t = Done t'
    /\ (length (valid_answers t') < length (valid_answers t))%nat
    /\ answer ∈ valid_answers t'
    /\ trial_count t' = trial_count t + 1
    /\ trial_inv entries answer t'.
Proof.
  intros Hentries Ha Hinv Hsize.
  destruct (greedy_round_progress entries answer Hentries Ha t Hinv Hsize)
    as (t' & k & Hround & _ & _ & Hcount & Hinv' & Hless).
  exists t'. split; [done|]. split; [done|].
  split; [apply (tinv_answer _ _ _ Hinv')|]. by split.
Qed.

(** X8.  Had [scores] been given one zero per entry, the loop of a trial
    would end: for a dictionary of well-formed words whose answers are
    distinct, and an answer among them, enough fuel (the number of answers
    feasible after the seed guess) brings the loop to the feasible set made
    of the answer alone; the final assertions pass, and the count returned is
    at least 1 and at most that number. *)
Theorem sized_trial_finds_answer (fuel : nat) (entries : WordList)
    (answer_idx num_answers : nat) :
  forallb word_ok entries = true -> NoDup (take num_answers entries) ->
  (answer_idx < num_answers)%nat -> (num_answers <= length entries)%nat ->
  let answer := entries !!! answer_idx in
  let t0 := sized_seed_trial entries answer num_answers in
  (length (valid_answers t0) <= fuel)%nat ->
  exists t',
    greedy_loop fuel entries t0 = Done t'
    /\ valid_answers t' = [answer]
    /\ conclude answer t' = Done (trial_count t')
    /\ 1 <= trial_count t' <= Z.of_nat (length (valid_answers t0)).
Proof.
  intros Hentries Hnodup Hidx Hnum answer t0 Hfuel.
  assert (Ha : word_ok answer = true)
    by (apply words_lookup_ok; [done|lia]).
  pose proof (trial_inv_sized_seed entries answer_idx num_answers
                Hentries Hnodup Hidx Hnum) as Hinv.
  fold answer in Hinv. fold t0 in Hinv.
  destruct (greedy_loop_reaches_answer entries answer Hentries Ha
              (length (valid_answers t0)) t0 fuel Hinv)
    as (t' & Hloop & Hv & Hc); [lia..|].
  exists t'. split; [done|]. split; [done|]. split.
  - apply conclude_done. by split.
  - assert (trial_count t0 = 1) by done. lia.
Qed.

(** ** The trial as written *)

(** The loop entered from the seed state, whose [scores] is empty. *)
Lemma greedy_loop_seed (fuel : nat) (entries : WordList) (answer : Word)
    (num_answers : nat) :
  entries <> [] ->
  greedy_loop fuel entries (seed_trial entries answer num_answers) =
  if (1 <? length (valid_answers (seed_trial entries answer num_answers)))%nat
  then match fuel with O => OutOfFuel | S _ => OutOfBounds end
  else Done (seed_trial entries answer num_answers).
Proof.
  intros Hne. destruct fuel as [|fuel]; cbn [greedy_loop]; [done|].
  destruct (1 <? _)%nat eqn:E; [|done].
  unfold greedy_round. rewrite score_round_empty_scores; [done..|].
  intros Hv. rewrite Hv in E. done.
Qed.

Lemma runGreedyTrial_done (fuel : nat) (entries : WordList)
    (answer_idx num_answers : nat) (count : Z) :
  runGreedyTrial fuel entries answer_idx num_answers = Done count <->
  (answer_idx < length entries)%nat /\ (num_answers <= length entries)%nat
  /\ valid_answers (seed_trial entries (entries !!! answer_idx) num_answers)
     = [entries !!! answer_idx]
  /\ count = 1.
Proof.
  unfold runGreedyTrial.
  case_decide as Hidx; [|split; [done|tauto]].
  case_decide as Hnum; [|split; [done|tauto]].
  rewrite greedy_loop_seed by (intros ->; cbn in Hidx; lia).
  destruct (1 <? _)%nat eqn:E.
  - split; [by destruct fuel|]. intros (_ & _ & Hv & _).
    rewrite Hv in E. done.
  - cbn [bind]. rewrite conclude_done. cbn [seed_trial trial_count]. split.
    + intros [? ?]. auto.
    + intros (_ & _ & ? & ?). auto.
Qed.

(** ** A feasible set without the answer *)


Lemma addGuesses_repeated (k : nat) :
  addGuesses (WorldleGame_new light) (first_guess :: replicate k first_guess)
  = addGuess (WorldleGame_new light) first_guess.
Proof.
  cbn [addGuesses foldl]. induction k as [|k IH]; [done|].
  cbn [replicate foldl].
  replace (addGuess (addGuess (WorldleGame_new light) first_guess) first_guess)
    with (addGuess (WorldleGame_new light) first_guess)
    by (vm_compute; reflexivity).
  exact IH.
Qed.

Lemma greedy_round_repeated (k : nat) (count : Z) :
  greedy_round repeated_dictionary (repeated_trial k count)
  = Done (repeated_trial (S k) (count + 1)).
Proof.
  unfold greedy_round, repeated_trial.
  cbn [valid_answers best_guesses scores trial_game trial_count].
  assert (Hs : score_round repeated_dictionary [light; light]
                 (first_guess :: replicate k first_guess)
                 (replicate (length repeated_dictionary) 0)
               = Done [4; 4; 4; 4]).
  { unfold score_round. cbn [foldl bind]. rewrite addGuesses_repeated.
    vm_compute. reflexivity. }
  rewrite Hs. cbn [bind].
  rewrite decide_True by (vm_compute; lia).
  f_equal.
  replace (repeated_dictionary !!! min_element [4; 4; 4; 4]) with first_guess
    by reflexivity.
  replace (addGuess (addGuess (WorldleGame_new might) first_guess) first_guess)
    with (addGuess (WorldleGame_new might) first_guess)
    by (vm_compute; reflexivity).
  f_equal. cbn [app]. f_equal.
  induction k as [|k IH]; [done|]. cbn [replicate app] in *. by rewrite IH.
Qed.

(** With [scores] holding one zero per entry, the loop of a trial whose
    feasible set is 'light' twice, and so lacks the answer 'might', never
    ends: no fuel suffices, and the assertions are never reached. *)
Lemma repeated_trial_never_ends (fuel k : nat) (count : Z) :
  greedy_loop fuel repeated_dictionary (repeated_trial k count) = OutOfFuel.
Proof.
  revert k count. induction fuel as [|fuel IH]; intros k count; [done|].
  cbn [greedy_loop]. rewrite greedy_round_repeated.
  replace (1 <? length (valid_answers (repeated_trial k count)))%nat
    with true by reflexivity.
  cbn [bind]. apply IH.
Qed.

(** The states [repeated_trial] are those of the trial for 'might' on
    [repeated_dictionary] once [scores] is sized: that trial never ends. *)
Lemma sized_trial_without_answer_never_ends (fuel : nat) :
  valid_answers (sized_seed_trial repeated_dictionary might 3) = [light; light]
  /\ greedy_loop fuel repeated_dictionary
       (sized_seed_trial repeated_dictionary might 3) = OutOfFuel.
Proof.
  split; [reflexivity|].
  replace (sized_seed_trial repeated_dictionary might 3)
    with (repeated_trial 0 1) by reflexivity.
  apply repeated_trial_never_ends.
Qed.

(** X9.  As written, [runGreedyTrial] returns a count only for a trial that
    the seed guess alone decides, and the count is then 1: it returns
    exactly when both indices are in range and the answer is the one word
    feasible after the seed guess. *)
Theorem runGreedyTrial_returns_only_one (fuel : nat) (entries : WordList)
    (answer_idx num_answers : nat) (count : Z) :
  runGreedyTrial fuel entries answer_idx num_answers = Done count <->
  (answer_idx < length entries)%nat /\ (num_answers <= length entries)%nat
  /\ List.filter
       (game_matches (addGuess (WorldleGame_new (entries !!! answer_idx))
                               first_guess))
       (take num_answers entries) = [entries !!! answer_idx]
  /\ count = 1.
Proof.
  rewrite runGreedyTrial_done. cbn [seed_trial valid_answers]. tauto.
Qed.

(** ** What the loop keeps track of *)

Lemma sublist_list_filter {A : Type} (p : A -> bool) (l : list A) :
  List.filter p l `sublist_of` l.
Proof.
  induction l as [|a l IH]; cbn; [constructor|].
  destruct (p a); by constructor.
Qed.

Lemma greedy_round_fields (entries : WordList) (t t' : trial) :
  greedy_round entries t = Done t' ->
  exists k,
    (k < length entries)%nat
    /\ trial_game t' = addGuess (trial_game t) (entries !!! k)
    /\ valid_answers t'
       = List.filter (game_matches (trial_game t')) (valid_answers t)
    /\ best_guesses t' = best_guesses t ++ [entries !!! k]
    /\ trial_count t' = trial_count t + 1.
Proof.
  unfold greedy_round.
  destruct (score_round _ _ _ _) as [s| | |]; cbn [bind]; try done.
  case_decide as Hk; [|done]. intros [= <-].
  exists (min_element s). cbn. done.
Qed.

(** X10.  When the loop ends, at most one feasible answer is left, the
    feasible answers are a sublist of those it started with, and the guesses
    it appended are entries of the dictionary, all applied to the trial's
    game, one per unit added to the round count. *)
Theorem greedy_loop_bookkeeping (fuel : nat) (entries : WordList)
    (t t' : trial) :
  greedy_loop fuel entries t = Done t' ->
  (length (valid_answers t') <= 1)%nat
  /\ valid_answers t' `sublist_of` valid_answers t
  /\ exists picks,
       best_guesses t' = best_guesses t ++ picks
       /\ picks ⊆ entries
       /\ trial_game t' = addGuesses (trial_game t) picks
       /\ trial_count t' = trial_count t + Z.of_nat (length picks).
Proof.
  revert t. induction fuel as [|fuel IH]; intros t; cbn [greedy_loop];
    destruct (1 <? length (valid_answers t))%nat eqn:E; try done.
  - intros [= <-]. apply Nat.ltb_ge in E. split; [done|]. split; [done|].
    exists []. rewrite app_nil_r. cbn. split; [done|].
    split; [by intros w Hw; inversion Hw|]. split; [done|lia].
  - destruct (greedy_round entries t) as [t1| | |] eqn:Hround; cbn [bind];
      try done.
    intros Hloop. destruct (IH _ Hloop) as (Hlen & Hsub & picks & Hb & Hp & Hg & Hc).
    destruct (greedy_round_fields _ _ _ Hround) as (k & Hk & Hg1 & Hv1 & Hb1 & Hc1).
    split; [done|]. split.
    + etrans; [exact Hsub|]. rewrite Hv1. apply sublist_list_filter.
    + exists (entries !!! k :: picks). split; [|split; [|split]].
      * rewrite Hb, Hb1, <- app_assoc. done.
      * intros w [->|Hw]%elem_of_cons; [|by apply Hp].
        by apply list_elem_of_lookup_total_2.
      * rewrite Hg, Hg1. done.
      * rewrite Hc, Hc1. cbn [length]. lia.
  - intros [= <-]. apply Nat.ltb_ge in E. split; [done|]. split; [done|].
    exists []. rewrite app_nil_r. cbn. split; [done|].
    split; [by intros w Hw; inversion Hw|]. split; [done|lia].
Qed.

(** ** The size of a score *)

(** X11.  For well-formed words, the score of a guess lies between the
    number of feasible answers and its square: every feasible answer taken
    as the hidden one still matches itself, and matches no more than all. *)
Theorem greedy_score_bounds (valid best : WordList) (guess : Word) :
  forallb word_ok valid = true -> forallb word_ok best = true ->
  word_ok guess = true ->
  Z.of_nat (length valid) <= greedy_score valid best guess
  <= Z.of_nat (length valid) * Z.of_nat (length valid).
Proof.
  intros Hv Hb Hg. unfold greedy_score.
  pose proof (sum_between
                (fun h => answers_left valid best h guess) valid
                1 (Z.of_nat (length valid))) as H.
  rewrite Z.mul_1_r in H. apply H. intros h Hh.
  rewrite answers_left_session. split; [|apply count_if_range].
  apply (count_if_at_least_one _ valid h); [done|].
  assert (Hh_ok : word_ok h = true) by by apply (words_elem_ok valid).
  apply session_inv_matches; [done|]. apply session_inv_session; [done|].
  rewrite forallb_app, Hb. cbn. by rewrite Hg.
Qed.

(** ** The driver *)

Lemma foldl_bind_failed {A B : Type} (f : A -> B -> result A) (l : list B)
    (r : result A) :
  (forall a, r <> Done a) ->
  forall a, foldl (fun acc x => let! v := acc in f v x) r l <> Done a.
Proof.
  revert r. induction l as [|x l IH]; intros r Hr a; cbn [foldl]; [done|].
  apply IH. intros b. destruct r; cbn [bind]; try done. by destruct (Hr a0).
Qed.

Lemma sum_of_trials (fuel : nat) (entries : WordList) (num_answers step : nat)
    (idx : list nat) (start total : Z) :
  foldl (fun acc i =>
           let! total := acc in
           let! count := runGreedyTrial fuel entries (i * step) num_answers in
           Done (total + count))
        (Done start) idx = Done total ->
  total = start + Z.of_nat (length idx).
Proof.
  revert start. induction idx as [|i idx IH]; intros start; cbn [foldl bind].
  - intros [= <-]. cbn. lia.
  - destruct (runGreedyTrial fuel entries (i * step) num_answers)
      as [count| | |] eqn:E; cbn [bind].
    + apply runGreedyTrial_done in E as (_ & _ & _ & ->).
      intros ->%IH. cbn [length]. lia.
    + intros H. by apply foldl_bind_failed in H.
    + intros H. by apply foldl_bind_failed in H.
    + intros H. by apply foldl_bind_failed in H.
Qed.

(** X12.  [run] fails the assertion of its first trial when the two files
    hold 445 words or fewer together; and whenever it completes, every trial
    has returned 1: the first count it prints is 1 and the total of the 50
    trials is 50. *)
Theorem run_outcomes (fuel : nat) (char_signed : bool)
    (buffer1 buffer2 : list ascii)
    (valid_entry_file answer_file : option (list ascii)) :
  ((length (loadWordFile char_signed buffer2 answer_file)
    + length (loadWordFile char_signed buffer1 valid_entry_file) <= 445)%nat ->
   run fuel char_signed buffer1 buffer2 valid_entry_file answer_file
   = AssertionFailed)
  /\ (forall first total,
        run fuel char_signed buffer1 buffer2 valid_entry_file answer_file
        = Done (first, total) ->
        first = 1 /\ total = 50).
Proof.
  unfold run. split.
  - intros Hsmall. unfold runGreedyTrial at 1.
    rewrite decide_False; [done|]. rewrite List.length_app. lia.
  - intros first total.
    destruct (runGreedyTrial fuel _ 445 _) as [f| | |] eqn:E; cbn [bind];
      try done.
    apply runGreedyTrial_done in E as (_ & _ & _ & ->).
    destruct (foldl _ (Done 0) (seq 0 50)) as [tot| | |] eqn:F; cbn [bind];
      try done.
    apply sum_of_trials in F. intros [= <- <-]. split; [done|].
    rewrite F, length_seq. done.
Qed.

(** ** Writing a word and reading it back *)

Lemma char_value_a (char_signed : bool) : char_value char_signed "a" = 97.
Proof. by destruct char_signed. Qed.

Lemma char_value_mod (char_signed : bool) (c : ascii) :
  char_value char_signed c mod 256 = Z.of_N (N_of_ascii c).
Proof.
  unfold char_value. pose proof (N_ascii_bounded c) as Hc.
  destruct (char_signed && (128 <=? Z.of_N (N_of_ascii c))).
  - symmetry. apply (Z.mod_unique _ _ (-1)); lia.
  - apply Z.mod_small. lia.
Qed.

Lemma int_to_char_value (char_signed : bool) (c : ascii) :
  int_to_char (char_value char_signed c - char_value char_signed "a" + 97) = c.
Proof.
  replace (char_value char_signed c - char_value char_signed "a" + 97)
    with (char_value char_signed c) by (rewrite char_value_a; lia).
  unfold int_to_char. rewrite char_value_mod, N2Z.id.
  apply ascii_N_embedding.
Qed.

Lemma char_value_int_to_char (char_signed : bool) (n : Z) :
  0 <= n <= 127 -> char_value char_signed (int_to_char n) = n.
Proof.
  intros Hn. unfold char_value, int_to_char.
  rewrite Z.mod_small by lia. rewrite N_ascii_embedding by lia.
  rewrite Z2N.id by lia.
  replace (128 <=? n) with false by (symmetry; apply Z.leb_gt; lia).
  by rewrite andb_false_r.
Qed.

(** X13.  Writing the word that [fromString] returns gives the string back,
    whatever its five symbols are. *)
Theorem Word_to_string_fromString (char_signed : bool) (str : string)
    (word : Word) :
  fromString char_signed str = Done word -> Word_to_string word = str.
Proof.
  unfold fromString. case_decide as Hlen; [|done]. intros [= <-].
  destruct str as [|c0 [|c1 [|c2 [|c3 [|c4 [|c5 str]]]]]]; try done.
  unfold Word_to_string, kNumLetters.
  change (Z.of_N (N_of_ascii "a")) with 97.
  cbn -[char_value int_to_char Z.add Z.sub].
  by rewrite !int_to_char_value.
Qed.

(** X14.  Reading back the string written for a word gives the word, when
    the word has [kNumLetters] letters and each of them plus the code of 'a'
    is the code of a 7-bit character (letters -97 to 30, the alphabet's 0 to
    25 among them). *)
Theorem fromString_Word_to_string (char_signed : bool) (word : Word) :
  length word = kNumLetters -> Forall (fun l => -97 <= l <= 30) word ->
  fromString char_signed (Word_to_string word) = Done word.
Proof.
  intros Hlen Hrange.
  destruct word as [|l0 [|l1 [|l2 [|l3 [|l4 [|l5 word]]]]]]; try done.
  repeat match goal with
         | H : Forall _ (_ :: _) |- _ => apply Forall_cons in H as [? H]
         end.
  unfold fromString, Word_to_string, kNumLetters.
  change (Z.of_N (N_of_ascii "a")) with 97.
  cbn -[char_value int_to_char Z.add Z.sub].
  rewrite !char_value_int_to_char by lia. rewrite char_value_a.
  do 2 f_equal; [lia|]. do 1 f_equal; [lia|]. do 1 f_equal; [lia|].
  do 1 f_equal; [lia|]. f_equal. lia.
Qed.

(** ** Loading a word file *)

Ltac read_symbols :=
  repeat match goal with
         | H : ?c <> newline |- context [Ascii.eqb ?c newline] =>
             rewrite (proj2 (Ascii.eqb_neq c newline) H)
         end.

Ltac split_symbols :=
  repeat match goal with
         | H : Forall _ (_ :: _) |- _ => apply Forall_cons in H as [? H]
         end.

Section ReadLines.

Variable char_signed : bool.

Lemma read_lines_full_line (c0 c1 c2 c3 c4 : ascii) (rest buffer : list ascii)
    (word_list : WordList) :
  length buffer = kBufferSize ->
  Forall (fun c => c <> newline) [c0; c1; c2; c3; c4] ->
  read_lines char_signed (c0 :: c1 :: c2 :: c3 :: c4 :: newline :: rest)
    buffer 0 word_list
  = read_lines char_signed rest [c0; c1; c2; c3; c4; nul] 0
      (word_list ++ [letters_of char_signed [c0; c1; c2; c3; c4]]).
Proof.
  intros Hlen Hc. split_symbols.
  destruct buffer as [|b0 [|b1 [|b2 [|b3 [|b4 [|b5 [|b6 buffer]]]]]]];
    try done.
  cbn -[char_value]. read_symbols. cbn -[char_value]. read_symbols. done.
Qed.

Lemma read_lines_last_line (c0 c1 c2 c3 c4 : ascii) (buffer : list ascii)
    (word_list : WordList) :
  length buffer = kBufferSize ->
  Forall (fun c => c <> newline) [c0; c1; c2; c3; c4] ->
  read_lines char_signed [c0; c1; c2; c3; c4] buffer 0 word_list
  = word_list ++ [letters_of char_signed [c0; c1; c2; c3; c4]].
Proof.
  intros Hlen Hc. split_symbols.
  destruct buffer as [|b0 [|b1 [|b2 [|b3 [|b4 [|b5 [|b6 buffer]]]]]]];
    try done.
  cbn -[char_value]. read_symbols. cbn -[char_value]. read_symbols. done.
Qed.

Lemma read_lines_long_line (c0 c1 c2 c3 c4 c5 : ascii)
    (rest buffer : list ascii) (word_list : WordList) :
  Forall (fun c => c <> newline) [c0; c1; c2; c3; c4; c5] ->
  read_lines char_signed (c0 :: c1 :: c2 :: c3 :: c4 :: c5 :: rest)
    buffer 0 word_list
  = word_list.
Proof.
  intros Hc. split_symbols.
  cbn -[char_value]. read_symbols. cbn -[char_value]. read_symbols. done.
Qed.

(** The lines of a well-formed file, each followed by the delimiter. *)
Lemma read_lines_well_formed (lines : list (list ascii))
    (rest buffer : list ascii) (word_list : WordList) :
  length buffer = kBufferSize ->
  Forall (fun line => length line = kNumLetters
                      /\ Forall (fun c => c <> newline) line) lines ->
  exists buffer',
    length buffer' = kBufferSize
    /\ read_lines char_signed
         (concat ((fun line => line ++ [newline]) <$> lines) ++ rest)
         buffer 0 word_list
       = read_lines char_signed rest buffer' 0
           (word_list ++ (letters_of char_signed <$> lines)).
Proof.
  intros Hlen Hlines. revert buffer word_list Hlen.
  induction Hlines as [|line lines [Hl Hc] _ IH]; intros buffer word_list Hlen.
  - exists buffer. by rewrite app_nil_r.
  - destruct line as [|c0 [|c1 [|c2 [|c3 [|c4 [|c5 line]]]]]]; try done.
    cbn [fmap list_fmap concat app].
    rewrite read_lines_full_line by done.
    destruct (IH [c0; c1; c2; c3; c4; nul]
                (word_list ++ [letters_of char_signed [c0; c1; c2; c3; c4]]))
      as [b' [Hb' ->]]; [done|].
    exists b'. split; [done|]. by rewrite <- app_assoc.
Qed.

End ReadLines.

(** X15.  A file in which every line has exactly [kNumLetters] symbols and
    ends with the delimiter loads as one word per line, the letters of the
    line in order; a last line of [kNumLetters] symbols without delimiter is
    loaded too.  The initial content of the buffer does not matter. *)
Theorem loadWordFile_well_formed (char_signed : bool) (buffer : list ascii)
    (lines : list (list ascii)) (last : list ascii) :
  length buffer = kBufferSize ->
  Forall (fun line => length line = kNumLetters
                      /\ Forall (fun c => c <> newline) line) lines ->
  length last = kNumLetters -> Forall (fun c => c <> newline) last ->
  loadWordFile char_signed buffer
    (Some (concat ((fun line => line ++ [newline]) <$> lines)))
  = letters_of char_signed <$> lines
  /\ loadWordFile char_signed buffer
       (Some (concat ((fun line => line ++ [newline]) <$> lines) ++ last))
     = letters_of char_signed <$> (lines ++ [last]).
Proof.
  intros Hlen Hlines Hlast Hc. unfold loadWordFile. split.
  - destruct (read_lines_well_formed char_signed lines [] buffer [] Hlen Hlines)
      as [b' [_ E]].
    rewrite app_nil_r in E. by rewrite E.
  - destruct (read_lines_well_formed char_signed lines last buffer [] Hlen
                Hlines) as [b' [Hb' E]].
    rewrite E. destruct last as [|c0 [|c1 [|c2 [|c3 [|c4 [|c5 last]]]]]];
      try done.
    rewrite read_lines_last_line by done. by rewrite fmap_app.
Qed.

(** X16.  Loading stops without a word at the first line of more than
    [kNumLetters] symbols: the words of the lines before it are returned and
    whatever follows is not read. *)
Theorem loadWordFile_stops_at_long_line (char_signed : bool)
    (buffer : list ascii) (lines : list (list ascii))
    (long rest : list ascii) :
  length buffer = kBufferSize ->
  Forall (fun line => length line = kNumLetters
                      /\ Forall (fun c => c <> newline) line) lines ->
  length long = kBufferSize -> Forall (fun c => c <> newline) long ->
  loadWordFile char_signed buffer
    (Some (concat ((fun line => line ++ [newline]) <$> lines) ++ long ++ rest))
  = letters_of char_signed <$> lines.
Proof.
  intros Hlen Hlines Hlong Hc. unfold loadWordFile.
  destruct (read_lines_well_formed char_signed lines (long ++ rest) buffer []
              Hlen Hlines) as [b' [Hb' E]].
  rewrite E.
  destruct long as [|c0 [|c1 [|c2 [|c3 [|c4 [|c5 [|c6 long]]]]]]]; try done.
  cbn [app]. by rewrite read_lines_long_line.
Qed.

(** X17.  A line of fewer than [kNumLetters] symbols is neither rejected nor
    skipped: it is loaded as a word made of its own letters, then the letter
    of the terminator (-97 for 'a' = 97), then the letters left in the buffer
    by the line before. *)
Theorem loadWordFile_short_line (char_signed : bool) (buffer : list ascii)
    (previous short : list ascii) :
  length buffer = kBufferSize ->
  length previous = kNumLetters -> Forall (fun c => c <> newline) previous ->
  (length short < kNumLetters)%nat -> Forall (fun c => c <> newline) short ->
  loadWordFile char_signed buffer
    (Some (previous ++ [newline] ++ short ++ [newline]))
  = [letters_of char_signed previous;
     letters_of char_signed
       (short ++ [nul] ++ drop (S (length short)) previous)].
Proof.
  intros Hlen Hprev Hc Hshort Hs. unfold loadWordFile.
  destruct previous as [|p0 [|p1 [|p2 [|p3 [|p4 [|p5 previous]]]]]]; try done.
  cbn [app]. rewrite read_lines_full_line by done. cbn [app].
  unfold kNumLetters in Hshort.
  destruct short as [|s0 [|s1 [|s2 [|s3 [|s4 short]]]]];
    cbn [length] in Hshort; try lia; split_symbols;
    repeat (progress (cbn -[char_value]; read_symbols)); done.
Qed.

(** * Instances on concrete words *)

(** The effect of the seed guess 'roate' on a fresh session for 'light'. *)
Lemma addGuess_effect_witness :
  word_ok light = true /\ forallb word_ok [] = true
  /\ word_ok first_guess = true
  /\ forall x,
       Z.testbit
         (in_answer_ (clues (addGuess (addGuesses (WorldleGame_new light) [])
                                      first_guess))) x = true <->
       Z.testbit (in_answer_ (clues (addGuesses (WorldleGame_new light) []))) x
       = true
       \/ (x ∈ first_guess /\ x ∈ light).
Proof.
  split; [reflexivity|]. split; [reflexivity|]. split; [reflexivity|].
  exact (proj2 (proj2 (addGuess_effect light [] first_guess
                         eq_refl eq_refl eq_refl))).
Defined.

(** [matches] on 'might' after the seed guess against 'light'. *)
Lemma matches_false_iff_witness :
  let c := clues (addGuess (WorldleGame_new light) first_guess) in
  word_ok might = true
  /\ (fst (matches c might) = false <->
        (exists i, (i < kNumLetters)%nat /\
           ((match_ c !!! i <> kUnknownLetter /\ match_ c !!! i <> might !!! i)
            \/ Z.testbit (wrong_ c !!! i) (might !!! i) = true))
        \/ ~ (forall x, Z.testbit (in_answer_ c) x = true -> x ∈ might))
  /\ snd (matches c might) = c.
Proof.
  intros c. split; [reflexivity|].
  exact (matches_false_iff c might eq_refl).
Defined.


(** The trial for 'light' over 'light', 'might', 'fight' enters the loop and
    writes outside [scores]. *)
Lemma runGreedyTrial_scores_out_of_bounds_witness :
  (0 < length [light; might; fight])%nat
  /\ (3 <= length [light; might; fight])%nat
  /\ (1 < length (valid_answers
                    (seed_trial [light; might; fight]
                                ([light; might; fight] !!! 0%nat) 3)))%nat
  /\ runGreedyTrial 1 [light; might; fight] 0 3 = OutOfBounds.
Proof.
  assert (H1 : (0 < length [light; might; fight])%nat) by (cbn; lia).
  assert (H2 : (3 <= length [light; might; fight])%nat) by (cbn; lia).
  assert (H3 : (1 < length (valid_answers
                    (seed_trial [light; might; fight]
                                ([light; might; fight] !!! 0%nat) 3)))%nat)
    by (vm_compute; lia).
  split; [exact H1|]. split; [exact H2|]. split; [exact H3|].
  exact (proj2 (runGreedyTrial_scores_out_of_bounds 0 [light; might; fight]
                  0 3 H1 H2 H3)).
Defined.

(** 'light' still matches after the guesses 'roate' and 'might'. *)
Lemma answer_always_matches_witness :
  word_ok light = true /\ forallb word_ok [first_guess; might] = true
  /\ game_matches
       (addGuesses (WorldleGame_new light) (take 2 [first_guess; might])) light
     = true.
Proof.
  split; [reflexivity|]. split; [reflexivity|].
  exact (answer_always_matches light [first_guess; might] 2 eq_refl eq_refl).
Defined.


(** The clues of a session for 'light' only grow with the guess 'might'
    after 'roate'. *)
Lemma addGuess_monotone_witness :
  word_ok light = true /\ forallb word_ok [first_guess] = true
  /\ word_ok might = true
  /\ forall x,
       Z.testbit
         (in_answer_ (clues (addGuesses (WorldleGame_new light) [first_guess])))
         x = true ->
       Z.testbit
         (in_answer_ (clues (addGuess
                               (addGuesses (WorldleGame_new light) [first_guess])
                               might))) x = true.
Proof.
  split; [reflexivity|]. split; [reflexivity|]. split; [reflexivity|].
  exact (proj2 (proj2 (addGuess_monotone light [first_guess] might
                         eq_refl eq_refl eq_refl))).
Defined.

(** "roate" has five symbols and encodes to the seed guess. *)
Lemma fromString_checks_length_only_witness :
  String.length "roate" = kNumLetters
  /\ fromString true "roate" = Done first_guess
  /\ exists word,
       fromString true "roate" = Done word
       /\ length word = kNumLetters
       /\ forall i c, String.get i "roate" = Some c ->
            word !!! i = char_value true c - 97.
Proof.
  split; [reflexivity|]. split; [reflexivity|].
  exact (proj2 (fromString_checks_length_only true "roate") eq_refl).
Defined.

(** Guessing 'roate' then 'might', or 'might' then 'roate'. *)
Lemma addGuesses_permutation_witness :
  [first_guess; might] ≡ₚ [might; first_guess]
  /\ addGuesses (WorldleGame_new light) [first_guess; might]
     = addGuesses (WorldleGame_new light) [might; first_guess].
Proof.
  assert (H : [first_guess; might] ≡ₚ [might; first_guess]) by apply perm_swap.
  split; [exact H|].
  exact (addGuesses_permutation (WorldleGame_new light) _ _ H).
Defined.

(** 'light' is matched after 'roate' and 'might', hence after 'roate'. *)
Lemma more_guesses_narrow_witness :
  word_ok light = true /\ forallb word_ok [first_guess] = true
  /\ forallb word_ok [might] = true
  /\ game_matches (session light ([first_guess] ++ [might])) light = true
  /\ game_matches (session light [first_guess]) light = true.
Proof.
  split; [reflexivity|]. split; [reflexivity|]. split; [reflexivity|].
  split; [reflexivity|].
  exact (more_guesses_narrow light [first_guess] [might] light
           eq_refl eq_refl eq_refl eq_refl eq_refl).
Defined.

(** After 'roate' and 'light' against 'light', 'might' matches only if it is
    'light'. *)
Lemma only_answer_matches_after_guessing_it_witness :
  word_ok light = true /\ forallb word_ok [first_guess] = true
  /\ word_ok might = true
  /\ (game_matches (addGuess (session light [first_guess]) light) might = true
      <-> might = light).
Proof.
  split; [reflexivity|]. split; [reflexivity|]. split; [reflexivity|].
  exact (only_answer_matches_after_guessing_it light [first_guess] might
           eq_refl eq_refl eq_refl).
Defined.

(** 'might' guessed against 'light' no longer matches. *)
Lemma wrong_guess_is_rejected_witness :
  word_ok light = true /\ forallb word_ok [first_guess] = true
  /\ word_ok might = true /\ might <> light
  /\ game_matches (addGuess (session light [first_guess]) might) might = false.
Proof.
  assert (H : might <> light) by discriminate.
  split; [reflexivity|]. split; [reflexivity|]. split; [reflexivity|].
  split; [exact H|].
  exact (wrong_guess_is_rejected light [first_guess] might
           eq_refl eq_refl eq_refl H).
Defined.

(** 'might' is feasible for 'light' after 'roate', and has the same clues. *)
Lemma feasible_word_has_same_clues_witness :
  word_ok light = true /\ word_ok might = true
  /\ forallb word_ok [first_guess] = true
  /\ game_matches (session light [first_guess]) might = true
  /\ clues (session might [first_guess]) = clues (session light [first_guess]).
Proof.
  split; [reflexivity|]. split; [reflexivity|]. split; [reflexivity|].
  split; [reflexivity|].
  exact (proj1 (feasible_word_has_same_clues light might [first_guess]
                  eq_refl eq_refl eq_refl eq_refl)).
Defined.

(** The sized seed state of the trial for 'light' over the small dictionary
    satisfies the invariant; a round there eliminates a word. *)
Lemma greedy_round_eliminates_witness :
  let t := sized_seed_trial small_dictionary light 3 in
  forallb word_ok small_dictionary = true /\ word_ok light = true
  /\ trial_inv small_dictionary light t
  /\ (1 < length (valid_answers t))%nat
  /\ exists t',
       greedy_round small_dictionary t = Done t'
       /\ (length (valid_answers t') < length (valid_answers t))%nat.
Proof.
  intros t.
  assert (Hinv : trial_inv small_dictionary light t).
  { split.
    - reflexivity.
    - reflexivity.
    - reflexivity.
    - compute_done.
    - compute_done.
    - compute_done. }
  assert (Hsize : (1 < length (valid_answers t))%nat) by (vm_compute; lia).
  split; [reflexivity|]. split; [reflexivity|]. split; [exact Hinv|].
  split; [exact Hsize|].
  destruct (greedy_round_eliminates small_dictionary light t
              eq_refl eq_refl Hinv Hsize) as (t' & H1 & H2 & _).
  exists t'. by split.
Defined.

(** The sized trial for 'light' over the small dictionary ends on 'light'. *)
Lemma sized_trial_finds_answer_witness :
  forallb word_ok small_dictionary = true
  /\ NoDup (take 3 small_dictionary)
  /\ (0 < 3)%nat /\ (3 <= length small_dictionary)%nat
  /\ (length (valid_answers (sized_seed_trial small_dictionary light 3)) <= 3)%nat
  /\ exists t',
       greedy_loop 3 small_dictionary
         (sized_seed_trial small_dictionary light 3) = Done t'
       /\ valid_answers t' = [light]
       /\ conclude light t' = Done (trial_count t').
Proof.
  assert (Hnd : NoDup (take 3 small_dictionary)) by compute_done.
  assert (H1 : (0 < 3)%nat) by lia.
  assert (H2 : (3 <= length small_dictionary)%nat) by (cbn; lia).
  assert (H3 : (length (valid_answers
                  (sized_seed_trial small_dictionary light 3)) <= 3)%nat)
    by (vm_compute; lia).
  split; [reflexivity|]. split; [exact Hnd|]. split; [exact H1|].
  split; [exact H2|]. split; [exact H3|].
  destruct (sized_trial_finds_answer 3 small_dictionary 0 3
              eq_refl Hnd H1 H2 H3) as (t' & Ha & Hb & Hc & _).
  exists t'. auto.
Defined.

(** The trial for 'roate' over 'roate', 'light' returns 1. *)
Lemma runGreedyTrial_returns_only_one_witness :
  runGreedyTrial 0 [first_guess; light] 0 2 = Done 1
  /\ List.filter
       (game_matches (addGuess (WorldleGame_new ([first_guess; light] !!! 0%nat))
                               first_guess))
       (take 2 [first_guess; light]) = [[first_guess; light] !!! 0%nat].
Proof.
  split; [reflexivity|].
  exact (proj1 (proj2 (proj2 (proj1 (runGreedyTrial_returns_only_one 0
                                       [first_guess; light] 0 2 1) eq_refl)))).
Defined.

(** The sized trial for 'light' ends with one feasible answer. *)
Lemma greedy_loop_bookkeeping_witness :
  exists t',
    greedy_loop 3 small_dictionary (sized_seed_trial small_dictionary light 3)
    = Done t'
    /\ (length (valid_answers t') <= 1)%nat
    /\ valid_answers t'
       `sublist_of` valid_answers (sized_seed_trial small_dictionary light 3).
Proof.
  eexists. split; [vm_compute; reflexivity|].
  pose proof (greedy_loop_bookkeeping 3 small_dictionary
                (sized_seed_trial small_dictionary light 3) _
                ltac:(vm_compute; reflexivity)) as (H1 & H2 & _).
  split; [exact H1|exact H2].
Defined.

(** The score of 'light' over the small dictionary lies between 3 and 9. *)
Lemma greedy_score_bounds_witness :
  forallb word_ok small_dictionary = true
  /\ forallb word_ok [first_guess] = true /\ word_ok light = true
  /\ Z.of_nat (length small_dictionary)
     <= greedy_score small_dictionary [first_guess] light
     <= Z.of_nat (length small_dictionary) * Z.of_nat (length small_dictionary).
Proof.
  split; [reflexivity|]. split; [reflexivity|]. split; [reflexivity|].
  exact (greedy_score_bounds small_dictionary [first_guess] light
           eq_refl eq_refl eq_refl).
Defined.

(** [run] on a one-word answer file and a one-word entry file. *)
Lemma run_outcomes_witness :
  (length (loadWordFile true blank_buffer (Some (roate_line ++ [newline])))
   + length (loadWordFile true blank_buffer (Some (might_line ++ [newline])))
   <= 445)%nat
  /\ run 1 true blank_buffer blank_buffer
       (Some (might_line ++ [newline])) (Some (roate_line ++ [newline]))
     = AssertionFailed.
Proof.
  assert (H : (length (loadWordFile true blank_buffer
                         (Some (roate_line ++ [newline])))
               + length (loadWordFile true blank_buffer
                           (Some (might_line ++ [newline]))) <= 445)%nat)
    by (vm_compute; lia).
  split; [exact H|].
  exact (proj1 (run_outcomes 1 true blank_buffer blank_buffer
                  (Some (might_line ++ [newline]))
                  (Some (roate_line ++ [newline]))) H).
Defined.

(** "roate" encoded and written again. *)
Lemma Word_to_string_fromString_witness :
  fromString true "roate" = Done first_guess
  /\ Word_to_string first_guess = "roate"%string.
Proof.
  split; [reflexivity|].
  exact (Word_to_string_fromString true "roate" first_guess eq_refl).
Defined.

(** The seed guess written and encoded again. *)
Lemma fromString_Word_to_string_witness :
  length first_guess = kNumLetters
  /\ Forall (fun l => -97 <= l <= 30) first_guess
  /\ fromString true (Word_to_string first_guess) = Done first_guess.
Proof.
  assert (H : Forall (fun l => -97 <= l <= 30) first_guess)
    by (repeat constructor; lia).
  split; [reflexivity|]. split; [exact H|].
  exact (fromString_Word_to_string true first_guess eq_refl H).
Defined.

Ltac check_symbols :=
  cbv [roate_line light_line might_line list_ascii_of_string];
  repeat first [ apply Forall_nil_2 | apply Forall_cons_2 | split
               | reflexivity | discriminate ].

(** A file of the lines "roate" and "light", with and without a last line
    "might" that has no delimiter. *)
Lemma loadWordFile_well_formed_witness :
  loadWordFile true blank_buffer
    (Some (concat ((fun line => line ++ [newline])
                   <$> [roate_line; light_line])))
  = letters_of true <$> [roate_line; light_line]
  /\ loadWordFile true blank_buffer
       (Some (concat ((fun line => line ++ [newline])
                      <$> [roate_line; light_line]) ++ might_line))
     = letters_of true <$> ([roate_line; light_line] ++ [might_line]).
Proof.
  apply (loadWordFile_well_formed true blank_buffer
           [roate_line; light_line] might_line).
  - reflexivity.
  - check_symbols.
  - reflexivity.
  - check_symbols.
Defined.

(** A file whose second line is "toolong": only "roate" is loaded. *)
Lemma loadWordFile_stops_at_long_line_witness :
  loadWordFile true blank_buffer
    (Some (concat ((fun line => line ++ [newline]) <$> [roate_line])
           ++ list_ascii_of_string "toolon"
           ++ list_ascii_of_string "g" ++ [newline] ++ light_line ++ [newline]))
  = letters_of true <$> [roate_line].
Proof.
  apply (loadWordFile_stops_at_long_line true blank_buffer [roate_line]
           (list_ascii_of_string "toolon")).
  - reflexivity.
  - check_symbols.
  - reflexivity.
  - check_symbols.
Defined.

(** A file of the lines "roate" and "ab": the second word is 'ab', the
    terminator, then 'te'. *)
Lemma loadWordFile_short_line_witness :
  loadWordFile true blank_buffer
    (Some (roate_line ++ [newline] ++ list_ascii_of_string "ab" ++ [newline]))
  = [letters_of true roate_line;
     letters_of true
       (list_ascii_of_string "ab" ++ [nul]
        ++ drop (S (length (list_ascii_of_string "ab"))) roate_line)].
Proof.
  apply (loadWordFile_short_line true blank_buffer roate_line
           (list_ascii_of_string "ab")).
  - reflexivity.
  - reflexivity.
  - check_symbols.
  - unfold kNumLetters. cbn. lia.
  - check_symbols.
Defined.
